(** * VQBayesOpt: the two preconditioned conjugate-gradient solvers

    A shallow embedding of
      - [src/linalg/preconditioned_conjugate_gradient.py]
        ([mat_inv_lemma], [pcg]), and
      - [src/solver/classic/pcg.py] ([PCG.solve]),
    over exact real arithmetic.  numpy arrays become MathComp matrices
    over the reals of the Standard Library: a 1-D array of length [n] is a
    column vector ['cV_n], a 2-D array of shape [(m, n)] is ['M_(m, n)].
    Python integers are [Z].  A [while] loop is a recursion on fuel. *)

From HB Require Import structures.
From Stdlib Require Import Reals Lra ZArith Lia.
From Stdlib Require Import ClassicalEpsilon FunctionalExtensionality.
From mathcomp Require Import ssreflect ssrfun ssrbool eqtype ssrnat seq.
From mathcomp Require Import choice fintype bigop ssralg matrix mxalgebra.

Set Implicit Arguments.
Unset Strict Implicit.
Unset Printing Implicit Defensive.

Delimit Scope R_scope with Re.

(** ** The reals as a MathComp field

    Equality on [R] is decided classically, choice comes from the
    epsilon operator; the ring and field laws are those of [Stdlib.Reals]. *)

Definition eqr (u v : R) : bool := if Req_dec_T u v then true else false.

Fact eqrP : Equality.axiom eqr.
Proof. by move=> u v; rewrite /eqr; case: Req_dec_T => h; constructor. Qed.

HB.instance Definition _ := hasDecEq.Build R eqrP.

Definition pickr (P : pred R) (_ : nat) : option R :=
  match excluded_middle_informative (exists u, P u) with
  | left ex => Some (proj1_sig (constructive_indefinite_description _ ex))
  | right _ => None
  end.

Fact pickr_correct (P : pred R) k u : pickr P k = Some u -> P u.
Proof.
rewrite /pickr; case: excluded_middle_informative => // ex [<-].
exact: (proj2_sig (constructive_indefinite_description _ ex)).
Qed.

Fact pickr_complete (P : pred R) : (exists u, P u) -> exists k, pickr P k.
Proof.
by move=> ex; exists 0%N; rewrite /pickr; case: excluded_middle_informative.
Qed.

Fact pickr_ext (P Q : pred R) : P =1 Q -> pickr P =1 pickr Q.
Proof. by move=> /functional_extensionality ->. Qed.

HB.instance Definition _ :=
  hasChoice.Build R pickr_correct pickr_complete pickr_ext.

Fact RplusA : associative Rplus.
Proof. by move=> u v w; rewrite Rplus_assoc. Qed.

HB.instance Definition _ :=
  GRing.isZmodule.Build R RplusA Rplus_comm Rplus_0_l Rplus_opp_l.

Fact RmultA : associative Rmult.
Proof. by move=> u v w; rewrite Rmult_assoc. Qed.

Fact R1_neq0 : R1 != R0.
Proof. by apply/eqP; exact: R1_neq_R0. Qed.

HB.instance Definition _ :=
  GRing.Zmodule_isComNzRing.Build R
    RmultA Rmult_comm Rmult_1_l Rmult_plus_distr_r R1_neq0.

Fact RmultVl (u : R) : u != R0 -> Rmult (Rinv u) u = R1.
Proof. by move=> /eqP u0; rewrite Rinv_l. Qed.

HB.instance Definition _ := GRing.ComNzRing_isField.Build R RmultVl Rinv_0.

Import GRing.Theory.
Local Open Scope ring_scope.

(** ** Outcomes of a run *)

(** The exceptions the two files can raise.  [LinAlgError] is numpy's
    (a singular matrix given to [np.linalg.inv] or [np.linalg.solve]);
    [NoConvergence] is [BaseException("no convergence")] of [PCG.solve],
    which the specification calls NonConvergenceError; the last three are
    raised by the assertion helpers of [src/utils/assertions.py]. *)
Inductive exn : Type :=
  | LinAlgError
  | NoConvergence
  | MissingOperandError
  | ShapeError
  | SingularMatrixError.

(** [NotFinite]: a floating-point operation left the reals (a division
    by zero, the square root of a negative number).  numpy does not raise
    there, it goes on with [inf] or [nan]; the exact model stops.
    [OutOfFuel]: the loop was still running when the fuel ran out. *)
Inductive run (T : Type) : Type :=
  | Return of T
  | Raise of exn
  | NotFinite
  | OutOfFuel.

Arguments Raise {T} e.
Arguments NotFinite {T}.
Arguments OutOfFuel {T}.

Definition bind {T U : Type} (c : run T) (k : T -> run U) : run U :=
  match c with
  | Return v => k v
  | Raise e => Raise e
  | NotFinite => NotFinite
  | OutOfFuel => OutOfFuel
  end.

Notation "v <- c ;; k" := (bind c (fun v => k))
  (at level 61, c at next level, right associativity).

(** ** The numpy primitives *)

Section Numpy.

Variable n : nat.

(** [u.T @ v] on 1-D arrays: the inner product. *)
Definition dot (u v : 'cV[R]_n) : R := (u^T *m v) 0 0.

(** [np.outer(u, v)]. *)
Definition outer (u v : 'cV[R]_n) : 'M[R]_n := u *m v^T.

(** [np.linalg.norm(v)]: the Euclidean norm. *)
Definition norm (v : 'cV[R]_n) : R := sqrt (dot v v).

(** [np.linalg.inv(A)]: raises on a singular matrix. *)
Definition np_inv (A : 'M[R]_n) : run 'M[R]_n :=
  if A \in unitmx then Return (invmx A) else Raise LinAlgError.

(** [np.linalg.solve(M, v)]: raises on a singular matrix. *)
Definition np_solve (M : 'M[R]_n) (v : 'cV[R]_n) : run 'cV[R]_n :=
  if M \in unitmx then Return (invmx M *m v) else Raise LinAlgError.

End Numpy.

(** [x / y] on floats: no exception on [y = 0], but no real number
    either. *)
Definition fdiv (u v : R) : run R :=
  if v == 0 then NotFinite else Return (u / v).

(** ** [src/linalg/preconditioned_conjugate_gradient.py] *)

Module Linalg.

(** [mat_inv_lemma(A, U, C, V)]; the locals [a], [b], [c] and
    [inv_mat] keep their names. *)
Definition mat_inv_lemma {n k : nat} (A : 'M[R]_n) (U : 'M[R]_(n, k))
    (C : 'M[R]_k) (V : 'M[R]_(n, k)) : run 'M[R]_n :=
  invA <- np_inv A ;;
  invC <- np_inv C ;;
  let a := invA *m U in
  b <- np_inv (invC + V^T *m (invA *m U)) ;;
  let c := V^T *m invA in
  let inv_mat := invA - a *m (b *m c) in
  Return inv_mat.

(** [0.1**2], the factor of [np.eye(n)] in [pcg]. *)
Definition ridge : R := ((1 / 10) ^ 2)%Re.

(** [rtol=1e-6] and [atol=1e-6]. *)
Definition default_rtol : R := (1 / 10 ^ 6)%Re.
Definition default_atol : R := (1 / 10 ^ 6)%Re.

Section Pcg.

Variable n : nat.

(** The locals of [pcg] that live across iterations. *)
Record pcg_state : Type := PcgState {
  x : 'cV[R]_n;
  C : 'M[R]_n;
  r : 'cV[R]_n;
  i : Z
}.

(** The preconditioner factor [P]: [None], or a 2-D array with [n] rows
    and some number [p] of columns. *)
Definition factor : Type := {p : nat & 'M[R]_(n, p)}.

(** Lines 55-62: the default [P] and the call of [mat_inv_lemma]. *)
Definition pcg_invP (P : option factor) : run 'M[R]_n :=
  let P := if P is Some P then P else existT _ n 1%:M in
  mat_inv_lemma (ridge *: 1%:M) (projT2 P) 1%:M (projT2 P).

(** Lines 64-67: the state before the loop. *)
Definition pcg_init (A : 'M[R]_n) (b : 'cV[R]_n) : pcg_state :=
  let x := 0 in
  {| x := x; C := 0; r := b - A *m x; i := 0 |}.

(** Lines 70-77: one pass through the body of the loop. *)
Definition pcg_body (A : 'M[R]_n) (b : 'cV[R]_n) (invP : 'M[R]_n)
    (st : pcg_state) : run pcg_state :=
  let r := b - A *m x st in
  let s := invP *m r in
  let alpha := dot s r in
  let d := (1%:M - C st *m A) *m s in
  let eta := dot s (A *m d) in
  w <- fdiv 1 eta ;;
  let C := C st + w *: outer d d in
  w <- fdiv alpha eta ;;
  let x := x st + w *: d in
  Return {| x := x; C := C; r := r; i := i st + 1 |}.

(** Lines 69-82: the loop.  It stops on the tolerance test at the head,
    or inside the body when the counter equals [maxiter]. *)
Fixpoint pcg_loop (fuel : nat) (A : 'M[R]_n) (b : 'cV[R]_n)
    (invP : 'M[R]_n) (maxiter : Z) (tol : R) (st : pcg_state)
    : run pcg_state :=
  if Rgt_dec (norm (r st)) tol then
    match fuel with
    | O => OutOfFuel
    | S fuel' =>
        st' <- pcg_body A b invP st ;;
        if (i st' =? maxiter)%Z then Return st'
        else pcg_loop fuel' A b invP maxiter tol st'
    end
  else Return st.

(** Line 68. *)
Definition pcg_tol (b : 'cV[R]_n) (rtol atol : R) : R :=
  Rmax (rtol * norm b) atol.

Definition pcg_maxiter (maxiter : option Z) : Z :=
  if maxiter is Some m then m else (10 * Z.of_nat n)%Z.

(** [pcg(A, b, maxiter, rtol, atol, P)], up to the final state of its
    locals. *)
Definition pcg_run (fuel : nat) (A : 'M[R]_n) (b : 'cV[R]_n)
    (maxiter : option Z) (rtol atol : R) (P : option factor)
    : run pcg_state :=
  let maxiter := pcg_maxiter maxiter in
  invP <- pcg_invP P ;;
  let st := pcg_init A b in
  let tol := pcg_tol b rtol atol in
  pcg_loop fuel A b invP maxiter tol st.

(** [pcg(A, b, maxiter, rtol, atol, P)]: both [return]s give [x, C]. *)
Definition pcg (fuel : nat) (A : 'M[R]_n) (b : 'cV[R]_n)
    (maxiter : option Z) (rtol atol : R) (P : option factor)
    : run ('cV[R]_n * 'M[R]_n) :=
  st <- pcg_run fuel A b maxiter rtol atol P ;;
  Return (x st, C st).

(** The state after [k] passes through the body, whatever the loop
    tests say. *)
Fixpoint pcg_iter (k : nat) (A : 'M[R]_n) (b : 'cV[R]_n)
    (invP : 'M[R]_n) (st : pcg_state) : run pcg_state :=
  match k with
  | O => Return st
  | S k' => st' <- pcg_iter k' A b invP st ;; pcg_body A b invP st'
  end.

End Pcg.

End Linalg.

(** ** [src/solver/classic/pcg.py] *)

Module Classic.

Section Solver.

(** The shape of [self.A]; [self.N] is its number of rows. *)
Variables (rows cols : nat).

Notation N := rows.

(** Modelled from the spec: the base class [Solver] of
    [src/solver/solver.py], which is not among the sources.  A solver
    instance carries the system [A], [b], of size [N], and the solution
    [x]; each is [None] until it is set.  The other attributes are those
    of [PCG.__init__]. *)
Record PCG : Type := Build_PCG {
  A : option 'M[R]_(rows, cols);
  b : option 'cV[R]_N;
  x : option 'cV[R]_N;
  iters : option Z;
  M : option 'M[R]_N;
  maxiter : option Z;
  tol : R
}.

Definition set_x (self : PCG) (v : 'cV[R]_N) : PCG :=
  Build_PCG (A self) (b self) (Some v) (iters self) (M self)
            (maxiter self) (tol self).

Definition set_iters (self : PCG) (v : Z) : PCG :=
  Build_PCG (A self) (b self) (x self) (Some v) (M self)
            (maxiter self) (tol self).

Definition set_M (self : PCG) (v : 'M[R]_N) : PCG :=
  Build_PCG (A self) (b self) (x self) (iters self) (Some v)
            (maxiter self) (tol self).

Definition set_maxiter (self : PCG) (v : Z) : PCG :=
  Build_PCG (A self) (b self) (x self) (iters self) (M self)
            (Some v) (tol self).

(** [PCG(M, maxiter, tol)] followed by the assignment of [A] and [b]. *)
Definition new_PCG (M : option 'M[R]_N) (maxiter : option Z) (tol : R)
    (A : option 'M[R]_(rows, cols)) (b : option 'cV[R]_N) : PCG :=
  Build_PCG A b None None M maxiter tol.

(** [tol=1e-8]. *)
Definition default_tol : R := (1 / 10 ^ 8)%Re.

(** Modelled from the spec: [assert_not_none] of
    [src/utils/assertions.py], which is not among the sources.  An unset
    operand fails with MissingOperandError. *)
Definition assert_not_none {T : Type} (v : option T) : run T :=
  if v is Some a then Return a else Raise MissingOperandError.

(** Modelled from the spec: [assert_square] of
    [src/utils/assertions.py], which is not among the sources.  A matrix
    whose two dimensions differ fails with ShapeError; on success the
    equality of the dimensions is handed on. *)
Definition assert_square (A0 : 'M[R]_(rows, cols)) : run (rows = cols) :=
  match @eqP _ rows cols with
  | ReflectT e => Return e
  | ReflectF _ => Raise ShapeError
  end.

(** Modelled from the spec: [assert_not_singular] of
    [src/utils/assertions.py], which is not among the sources.  A
    singular matrix fails with SingularMatrixError. *)
Definition assert_not_singular (A0 : 'M[R]_N) : run unit :=
  if A0 \in unitmx then Return tt else Raise SingularMatrixError.

(** [np.sqrt(v)]: [nan] on a negative number. *)
Definition np_sqrt (v : R) : run R :=
  if Rlt_dec v 0 then NotFinite else Return (sqrt v).

(** What the loop of [solve] works on: the attribute [self.x] and the
    locals [r], [d], [delta_new], [i]. *)
Record cg_state : Type := CgState {
  self_x : 'cV[R]_N;
  r : 'cV[R]_N;
  d : 'cV[R]_N;
  delta_new : R;
  i : Z
}.

(** Lines 35-40. *)
Definition cg_init (A0 M0 : 'M[R]_N) (b0 : 'cV[R]_N) : run cg_state :=
  let x0 := 0 in
  let r := b0 - A0 *m x0 in
  z <- np_solve M0 r ;;
  let d := z in
  let delta_new := dot r z in
  Return {| self_x := x0; r := r; d := d; delta_new := delta_new; i := 0 |}.

(** Lines 42-51: one pass through the body of the loop. *)
Definition cg_body (A0 M0 : 'M[R]_N) (st : cg_state) : run cg_state :=
  let q := A0 *m d st in
  alpha <- fdiv (delta_new st) (dot (d st) q) ;;
  let x1 := self_x st + alpha *: d st in
  let r := r st - alpha *: q in
  z <- np_solve M0 r ;;
  let delta_old := delta_new st in
  let delta_new := dot r z in
  beta <- fdiv delta_new delta_old ;;
  let d := z + beta *: d st in
  Return {| self_x := x1; r := r; d := d; delta_new := delta_new;
            i := i st + 1 |}.

(** How the loop of [solve] ends: the state it leaves, and whether the
    [raise] of line 54 was reached. *)
Definition ending : Type := (cg_state * bool)%type.

(** Lines 41-54: the loop. *)
Fixpoint cg_loop (fuel : nat) (A0 M0 : 'M[R]_N) (tol0 : R) (maxiter0 : Z)
    (st : cg_state) : run ending :=
  sq <- np_sqrt (delta_new st) ;;
  if Rgt_dec sq tol0 && (i st <? maxiter0)%Z then
    match fuel with
    | O => OutOfFuel
    | S fuel' =>
        st' <- cg_body A0 M0 st ;;
        if (i st' =? maxiter0)%Z then Return (st', true)
        else cg_loop fuel' A0 M0 tol0 maxiter0 st'
    end
  else Return (st, false).

(** A statement that can raise, inside a method: on an exception the
    instance is left as it is at that point. *)
Definition guard {T : Type} (self : PCG) (c : run T)
    (k : T -> PCG * run unit) : PCG * run unit :=
  match c with
  | Return v => k v
  | Raise e => (self, Raise e)
  | NotFinite => (self, NotFinite)
  | OutOfFuel => (self, OutOfFuel)
  end.

Notation "v <-[ self ] c ;; k" := (guard self c (fun v => k))
  (at level 61, c at next level, right associativity).

(** [solve(self)]: the instance it leaves and how the call ends.  The
    assertions come first.  [self.maxiter] and [self.M] are assigned when
    unset; assigning them the value they hold leaves the same instance.
    The decorator [timing] only measures the call.  When the loop leaves
    the exact model ([NotFinite]) the instance is reported as it was on
    entering the loop. *)
Definition solve (fuel : nat) (self : PCG) : PCG * run unit :=
  A0 <-[self] assert_not_none (A self) ;;
  b0 <-[self] assert_not_none (b self) ;;
  sq <-[self] assert_square A0 ;;
  let A0 : 'M[R]_N := castmx (erefl, esym sq) A0 in
  _ <-[self] assert_not_singular A0 ;;
  let maxiter0 :=
    if maxiter self is Some m then m else (10 * Z.of_nat N)%Z in
  let self := set_maxiter self maxiter0 in
  let M0 := if M self is Some M0 then M0 else 1%:M in
  let self := set_M self M0 in
  let self := set_x self 0 in
  st <-[self] cg_init A0 M0 b0 ;;
  fin <-[self] cg_loop fuel A0 M0 (tol self) maxiter0 st ;;
  let self := set_x self (self_x fin.1) in
  if fin.2 then (set_iters self maxiter0, Raise NoConvergence)
  else (set_iters self (i fin.1), Return tt).

(** The state after [k] passes through the body, whatever the loop
    tests say. *)
Fixpoint cg_iter (k : nat) (A0 M0 : 'M[R]_N) (st : cg_state)
    : run cg_state :=
  match k with
  | O => Return st
  | S k' => st' <- cg_iter k' A0 M0 st ;; cg_body A0 M0 st'
  end.

End Solver.

End Classic.

(** ** Notions used in the statements *)

Import Linalg.

(** The matrix [A + U C V^T] that [mat_inv_lemma] is to invert, the
    [k x k] matrix it inverts on the way, and the value of the Woodbury
    formula. *)
Definition updated {n k : nat} (A : 'M[R]_n) (U : 'M[R]_(n, k))
    (C : 'M[R]_k) (V : 'M[R]_(n, k)) : 'M[R]_n :=
  A + U *m C *m V^T.

Definition capacitance {n k : nat} (A : 'M[R]_n) (U : 'M[R]_(n, k))
    (C : 'M[R]_k) (V : 'M[R]_(n, k)) : 'M[R]_k :=
  invmx C + V^T *m (invmx A *m U).

Definition woodbury {n k : nat} (A : 'M[R]_n) (U : 'M[R]_(n, k))
    (C : 'M[R]_k) (V : 'M[R]_(n, k)) : 'M[R]_n :=
  invmx A - (invmx A *m U) *m (invmx (capacitance A U C V) *m (V^T *m invmx A)).

(** The factor [P] that [pcg] works with, and the matrix [invP] it
    computes from it. *)
Definition pcg_P {n : nat} (P : option (factor n)) : factor n :=
  if P is Some P then P else existT _ n 1%:M.

Definition pcg_precond {n : nat} (P : option (factor n)) : 'M[R]_n :=
  let P0 := projT2 (pcg_P P) in invmx (ridge *: 1%:M + P0 *m P0^T).

(** The test at the head of the loop of [solve], when the square root
    is defined. *)
Definition cg_continue {n : nat} (tol0 : R) (maxiter0 : Z)
    (st : Classic.cg_state n) : Prop :=
  [/\ (0 <= Classic.delta_new st)%Re,
      (sqrt (Classic.delta_new st) > tol0)%Re
    & (Classic.i st < maxiter0)%Z].

(** [self.maxiter] and [self.M] once [solve] has filled in the
    defaults, and the instance when the loop is entered. *)
Definition effective_maxiter {rows cols : nat}
    (self : Classic.PCG rows cols) : Z :=
  if Classic.maxiter self is Some m then m else (10 * Z.of_nat rows)%Z.

Definition effective_M {rows cols : nat}
    (self : Classic.PCG rows cols) : 'M[R]_rows :=
  if Classic.M self is Some M0 then M0 else 1%:M.

Definition prepared {rows cols : nat} (self : Classic.PCG rows cols)
    : Classic.PCG rows cols :=
  Classic.set_x
    (Classic.set_M (Classic.set_maxiter self (effective_maxiter self))
                   (effective_M self)) 0.

(** [solve] from line 29 on, for a matrix that passed the assertions. *)
Definition solve_core {rows cols : nat} (fuel : nat)
    (self : Classic.PCG rows cols) (A0 : 'M[R]_rows) (b0 : 'cV[R]_rows)
    : Classic.PCG rows cols * run unit :=
  Classic.guard (prepared self)
    (Classic.cg_init A0 (effective_M self) b0) (fun st =>
  Classic.guard (prepared self)
    (Classic.cg_loop fuel A0 (effective_M self) (Classic.tol self)
                     (effective_maxiter self) st) (fun fin =>
  let self' := Classic.set_x (prepared self) (Classic.self_x fin.1) in
  if fin.2
  then (Classic.set_iters self' (effective_maxiter self), Raise NoConvergence)
  else (Classic.set_iters self' (Classic.i fin.1), Return tt))).

(** Arrays of the 2 x 2 examples: the vector [(u, v)], the matrix
    [diag(u, v)]. *)
Definition vec2 (u v : R) : 'cV[R]_2 := \col_j (if j == 0 then u else v).

Definition diag2 (u v : R) : 'M[R]_2 :=
  \matrix_(j, k) (if j == k then (if j == 0 then u else v) else 0).

(** The matrix with rows [(a, b)] and [(c, d)]. *)
Definition mat2 (a b c d : R) : 'M[R]_2 :=
  \matrix_(j, k) (if j == 0 then (if k == 0 then a else b)
                  else (if k == 0 then c else d)).

(** Arrays of the 3 x 3 example: the vector [(u, v, w)], the matrix
    [diag(u, v, w)]. *)
Definition vec3 (u v w : R) : 'cV[R]_3 :=
  \col_j (if (j : nat) == 0%N then u else if (j : nat) == 1%N then v else w).

Definition diag3 (u v w : R) : 'M[R]_3 :=
  \matrix_(j, k)
    (if j == k
     then (if (j : nat) == 0%N then u else if (j : nat) == 1%N then v else w)
     else 0).

(** On [A = diag(1, 2)], [b = (1, 1)] with [invP = m I]: the inverse
    estimate after the first pass, the search direction of the second
    pass, and the inverse estimate after it. *)
Definition C_first (m : R) : 'M[R]_2 :=
  (1 / (3%Re * (m * m))) *: outer (vec2 m m) (vec2 m m).

Definition d_second (m : R) : 'cV[R]_2 :=
  vec2 (4%Re / 9%Re * m) (- (2%Re / 9%Re) * m).

Definition C_second (m : R) : 'M[R]_2 :=
  C_first m
  + (1 / (8%Re / 27%Re * (m * m))) *: outer (d_second m) (d_second m).

(** ** Real arithmetic *)

Ltac to_reals :=
  rewrite /GRing.zero /GRing.one /GRing.add /GRing.mul /GRing.opp /GRing.inv /=.

Lemma Rneq0 (u : R) : u <> 0%Re -> u != 0.
Proof. by move=> u0; apply/eqP. Qed.

Lemma Req0 (u : R) : u != 0 -> u <> 0%Re.
Proof. by move/eqP. Qed.

Lemma sum_ge0 (I : finType) (f : I -> R) (P : pred I) :
  (forall j, 0 <= f j)%Re -> (0 <= \sum_(j | P j) f j)%Re.
Proof.
move=> f0; elim/big_rec: _ => [|j w _ w0]; first exact: Rle_refl.
by have := f0 j; to_reals; lra.
Qed.

Section Dot.

Variable n : nat.
Implicit Types u v : 'cV[R]_n.

Lemma dotE u v : dot u v = \sum_j u j 0 * v j 0.
Proof. by rewrite /dot mxE; apply: eq_bigr => j _; rewrite mxE. Qed.

Lemma dot_ge0 v : (0 <= dot v v)%Re.
Proof. by rewrite dotE; apply: sum_ge0 => j; exact: Rle_0_sqr. Qed.

Lemma dot_eq0 v : dot v v = 0 -> v = 0.
Proof.
rewrite dotE => s0; apply/colP => j; rewrite mxE.
move: s0; rewrite (bigD1 j) //=.
have := @sum_ge0 _ (fun j => v j 0 * v j 0) (fun j' => j' != j).
move=> /(_ (fun j => Rle_0_sqr _)).
by move: (\sum_(_ < _ | _) _) => w; to_reals; nra.
Qed.

Lemma dotDr u v w : dot u (v + w) = dot u v + dot u w.
Proof. by rewrite /dot mulmxDr mxE. Qed.

Lemma dotZr a u v : dot u (a *: v) = a * dot u v.
Proof. by rewrite /dot -scalemxAr mxE. Qed.

Lemma dotNN u : dot (- u) (- u) = dot u u.
Proof. by rewrite /dot [(- u)^T]linearN /= mulNmx mulmxN opprK. Qed.

Lemma norm0 : norm (0 : 'cV[R]_n) = 0.
Proof. by rewrite /norm /dot mulmx0 mxE sqrt_0. Qed.

Lemma normN u : norm (- u) = norm u.
Proof. by rewrite /norm dotNN. Qed.

Lemma outer_mul (e v : 'cV[R]_n) : outer e e *m v = dot e v *: e.
Proof. by rewrite /outer -mulmxA [e^T *m v]mx11_scalar mul_mx_scalar. Qed.

End Dot.

(** ** Invertible matrices *)

Section Units.

Variable n : nat.

(** A square matrix with a trivial kernel is invertible. *)
Lemma unitmx_colker (T : 'M[R]_n) :
  (forall w : 'cV[R]_n, T *m w = 0 -> w = 0) -> T \in unitmx.
Proof.
move=> ker0; rewrite -unitmx_tr -row_free_unit -kermx_eq0.
apply/rowV0P => v /sub_kermxP vT.
apply: trmx_inj; rewrite trmx0; apply: ker0.
by rewrite -[T]trmxK -trmx_mul vT trmx0.
Qed.

(** Over the reals [c I + P P^T] is positive definite for [c > 0]. *)
Lemma ridge_gram_unit (p : nat) (c : R) (P : 'M[R]_(n, p)) :
  (0 < c)%Re -> c *: 1%:M + P *m P^T \in unitmx.
Proof.
move=> c0; apply: unitmx_colker => w Tw.
have: dot w ((c *: 1%:M + P *m P^T) *m w) = 0.
  by rewrite Tw /dot mulmx0 mxE.
rewrite mulmxDl dotDr -scalemxAl mul1mx dotZr.
have ->: dot w (P *m P^T *m w) = dot (P^T *m w) (P^T *m w).
  by rewrite /dot trmx_mul trmxK !mulmxA.
move=> e0; apply: dot_eq0.
have := dot_ge0 w; have := dot_ge0 (P^T *m w).
by move: e0 c0; to_reals; nra.
Qed.

End Units.

Lemma unit_scalar1 (c : R) : c != 0 -> (c%:M : 'M[R]_1) \in unitmx.
Proof. by move=> c0; rewrite unitmxE det_scalar expr1 unitfE. Qed.

Lemma np_inv_unit n (T : 'M[R]_n) :
  T \in unitmx -> np_inv T = Return (invmx T).
Proof. by rewrite /np_inv => ->. Qed.

Lemma np_inv_singular n (T : 'M[R]_n) :
  T \notin unitmx -> np_inv T = Raise LinAlgError.
Proof. by rewrite /np_inv => /negbTE ->. Qed.

(** ** The Woodbury identity *)

Section Woodbury.

Variables (n k : nat).
Variables (A : 'M[R]_n) (U : 'M[R]_(n, k)) (C : 'M[R]_k) (V : 'M[R]_(n, k)).

Hypothesis Au : A \in unitmx.
Hypothesis Cu : C \in unitmx.

Lemma capacitanceE :
  V^T *m (invmx A *m U) = capacitance A U C V - invmx C.
Proof. by rewrite /capacitance addrC addKr. Qed.

Lemma woodbury_right :
  capacitance A U C V \in unitmx -> updated A U C V *m woodbury A U C V = 1%:M.
Proof.
move=> Su; rewrite /updated /woodbury.
rewrite mulmxBr !mulmxDl mulmxV // -!mulmxA (mulKVmx Au).
rewrite (mulmxA V^T (invmx A)) (mulmxA (V^T *m invmx A) U).
rewrite -(mulmxA V^T (invmx A) U) capacitanceE.
rewrite mulmxBl (mulKVmx Su) !mulmxBr (mulKVmx Cu).
by rewrite [X in _ - X]addrC subrK addrK.
Qed.

Lemma woodbury_left :
  capacitance A U C V \in unitmx -> woodbury A U C V *m updated A U C V = 1%:M.
Proof. by move=> Su; have /mulmx1C := woodbury_right Su. Qed.

(** When [A + U C V^T] is invertible, so is the matrix that
    [mat_inv_lemma] inverts third; its inverse is
    [C - C V^T (A + U C V^T)^-1 U C]. *)
Lemma capacitance_unit :
  updated A U C V \in unitmx -> capacitance A U C V \in unitmx.
Proof.
move=> Tu.
suff /mulmx1_unit [] :
  capacitance A U C V
    *m (C - C *m V^T *m invmx (updated A U C V) *m U *m C) = 1%:M by [].
have E Y : U *m (C *m (V^T *m Y)) = updated A U C V *m Y - A *m Y.
  by rewrite /updated mulmxDl [A *m Y + _]addrC addrK -!mulmxA.
rewrite /capacitance mulmxBr !mulmxDl.
rewrite (mulVmx Cu) -!mulmxA (mulKmx Cu) E (mulKVmx Tu).
rewrite !mulmxBr (mulKmx Au).
by rewrite [X in _ - X]addrC subrK addrK.
Qed.

Lemma updated_unit :
  capacitance A U C V \in unitmx -> updated A U C V \in unitmx.
Proof. by move=> /woodbury_right /mulmx1_unit []. Qed.

Lemma woodbury_inv :
  capacitance A U C V \in unitmx -> woodbury A U C V = invmx (updated A U C V).
Proof.
move=> Su; have Tu := updated_unit Su.
by rewrite -[LHS]mul1mx -(mulVmx Tu) -mulmxA woodbury_right // mulmx1.
Qed.

Lemma mat_inv_lemmaE :
  capacitance A U C V \in unitmx ->
  mat_inv_lemma A U C V = Return (woodbury A U C V).
Proof.
by move=> Su; rewrite /mat_inv_lemma !np_inv_unit //= np_inv_unit.
Qed.

End Woodbury.

(** C1, as amended.  For invertible [A] (n x n) and [C] (k x k) and
    every [U], [V] (n x k) such that [A + U C V^T] is invertible,
    [mat_inv_lemma(A, U, C, V)] returns a matrix [W]; [W] is the value of
    the Woodbury formula [A^-1 - A^-1 U (C^-1 + V^T A^-1 U)^-1 V^T A^-1],
    and it is the inverse of [A + U C V^T] on both sides. *)
Theorem mat_inv_lemma_inverse n k (A : 'M[R]_n) (U : 'M[R]_(n, k))
    (C : 'M[R]_k) (V : 'M[R]_(n, k)) :
  A \in unitmx -> C \in unitmx -> A + U *m C *m V^T \in unitmx ->
  exists W : 'M[R]_n,
    [/\ mat_inv_lemma A U C V = Return W,
        W = invmx A - invmx A *m U
              *m invmx (invmx C + V^T *m invmx A *m U) *m V^T *m invmx A,
        (A + U *m C *m V^T) *m W = 1%:M
      & W *m (A + U *m C *m V^T) = 1%:M].
Proof.
move=> Au Cu Tu; have Su := capacitance_unit Au Cu Tu.
exists (woodbury A U C V); split.
- exact: mat_inv_lemmaE.
- by rewrite /woodbury /capacitance !mulmxA.
- exact: woodbury_right.
- exact: woodbury_left.
Qed.

(** C1, witness: [A = U = C = V = [[1]]], where [A + U C V^T = [[2]]]. *)
Lemma mat_inv_lemma_inverse_witness :
  exists W : 'M[R]_1,
    [/\ mat_inv_lemma (1%:M : 'M[R]_1) (1%:M : 'M[R]_1)
                      (1%:M : 'M[R]_1) (1%:M : 'M[R]_1) = Return W,
        W = invmx 1%:M - invmx 1%:M *m 1%:M
              *m invmx (invmx 1%:M + (1%:M)^T *m invmx 1%:M *m 1%:M)
              *m (1%:M)^T *m invmx 1%:M,
        (1%:M + 1%:M *m 1%:M *m (1%:M)^T) *m W = 1%:M
      & W *m (1%:M + 1%:M *m 1%:M *m (1%:M)^T) = 1%:M].
Proof.
apply: mat_inv_lemma_inverse; rewrite ?unitmx1 //.
by rewrite mulmx1 -[X in X + _]scale1r; apply: ridge_gram_unit; exact: Rlt_0_1.
Defined.

(** C1, counterexample to the claim as stated.  [A = [[1]]] and
    [C = [[1]]] are invertible, [U = [[1]]], [V = [[-1]]]: the sum
    [A + U C V^T] is the zero matrix, and [mat_inv_lemma] returns no
    matrix, it raises numpy's LinAlgError at its third inversion. *)
Lemma mat_inv_lemma_raises :
  let A : 'M[R]_1 := 1%:M in
  let U : 'M[R]_1 := 1%:M in
  let C : 'M[R]_1 := 1%:M in
  let V : 'M[R]_1 := (- 1)%:M in
  [/\ A \in unitmx, C \in unitmx, A + U *m C *m V^T = 0
    & mat_inv_lemma A U C V = Raise LinAlgError].
Proof.
split; rewrite ?unitmx1 //.
  by rewrite tr_scalar_mx !mul1mx -raddfD /= subrr raddf0.
rewrite /mat_inv_lemma !np_inv_unit ?unitmx1 //= invmx1 tr_scalar_mx !mulmx1.
by rewrite -raddfD /= subrr raddf0 np_inv_singular // unitmxE det0 unitr0.
Qed.

(** ** The preconditioner of [pcg] *)

Lemma ridge_gt0 : (0 < ridge)%Re.
Proof. by rewrite /ridge; lra. Qed.

Lemma ridgeE : ridge = (1 / 100)%Re.
Proof. by rewrite /ridge; lra. Qed.

(** For every [P] the call of [mat_inv_lemma] in [pcg] returns, and it
    returns the inverse of [0.01 I + P P^T]. *)
Lemma pcg_invP_returns n (P : option (factor n)) :
  pcg_invP P = Return (pcg_precond P).
Proof.
rewrite /pcg_invP /pcg_precond -/(pcg_P P); move: (projT2 _) => P0 /=.
have Au : ridge *: (1%:M : 'M[R]_n) \in unitmx.
  rewrite unitmxZ ?unitmx1 // unitfE; apply/eqP.
  by have := ridge_gt0; to_reals; lra.
have Tu : updated (ridge *: 1%:M) P0 1%:M P0 \in unitmx.
  by rewrite /updated mulmx1; exact: ridge_gram_unit ridge_gt0.
have Su := capacitance_unit Au (unitmx1 _ _) Tu.
rewrite mat_inv_lemmaE ?unitmx1 // woodbury_inv ?unitmx1 //.
by rewrite /updated mulmx1.
Qed.

(** C4, as amended.  In [pcg] the matrix [invP] is the result of
    [mat_inv_lemma] on [(0.01 I_n, P, I_p, P)], where [p] is the number of
    columns of [P] (and [P = I_n] when no [P] is given); the weight on the
    identity is [0.1 ** 2 = 0.01]; the call returns for every [P], and its
    result is the inverse of [0.01 I_n + P P^T]. *)
Theorem pcg_invP_ridge n (P : option (factor n)) :
  let P0 := projT2 (if P is Some P then P else existT _ n 1%:M) in
  [/\ pcg_invP P = mat_inv_lemma ((1 / 100)%Re *: 1%:M) P0 1%:M P0,
      ridge = ((1 / 10) ^ 2)%Re /\ ridge = (1 / 100)%Re
    & exists W : 'M[R]_n,
        pcg_invP P = Return W /\
        ((1 / 100)%Re *: 1%:M + P0 *m P0^T) *m W = 1%:M].
Proof.
split; first by rewrite /pcg_invP ridgeE.
  by split=> //; exact: ridgeE.
exists (pcg_precond P); rewrite pcg_invP_returns -ridgeE; split=> //.
by rewrite mulmxV //; exact: ridge_gram_unit ridge_gt0.
Qed.

(** C4, counterexample to the claim as stated.  For [n = 1] the entry
    of the first argument [np.eye(n) * 0.1**2] of [mat_inv_lemma] is
    [0.01]; it is not [0.01 ** 2 = 1e-4]. *)
Lemma pcg_ridge_not_1e4 :
  (ridge *: 1%:M : 'M[R]_1) 0 0 = (1 / 100)%Re /\
  (ridge *: 1%:M : 'M[R]_1) 0 0 <> ((1 / 100) ^ 2)%Re.
Proof.
by rewrite !mxE /= mulr1 /ridge; split; lra.
Qed.

(** ** Runs and floating-point divisions *)

Lemma bind_Return (T U : Type) (v : T) (k : T -> run U) :
  bind (Return v) k = k v.
Proof. by []. Qed.

Lemma fdiv_def (u v : R) : v != 0 -> fdiv u v = Return (u / v).
Proof. by rewrite /fdiv => /negbTE ->. Qed.

Lemma fdiv_eq (u v w : R) : w != 0 -> v = w -> fdiv u v = Return (u / w).
Proof. by move=> w0 ->; exact: fdiv_def. Qed.

Lemma fdiv0 (u : R) : fdiv u 0 = NotFinite.
Proof. by rewrite /fdiv eqxx. Qed.

(** ** 1 x 1 systems *)

(** Every array of a 1 x 1 system is a scalar matrix. *)

Lemma dot_scalar (u v : R) : dot (u%:M : 'cV[R]_1) v%:M = u * v.
Proof. by rewrite /dot tr_scalar_mx -scalar_mxM mxE eqxx mulr1n. Qed.

Lemma outer_scalar (u v : R) : outer (u%:M : 'cV[R]_1) v%:M = (u * v)%:M.
Proof. by rewrite /outer tr_scalar_mx -scalar_mxM. Qed.

Lemma norm_scalar (u : R) : norm (u%:M : 'cV[R]_1) = sqrt (u * u).
Proof. by rewrite /norm dot_scalar. Qed.

Lemma addmx_scalar (u v : R) : (u%:M : 'M[R]_1) + v%:M = (u + v)%:M.
Proof. by rewrite raddfD. Qed.

Lemma submx_scalar (u v : R) : (u%:M : 'M[R]_1) - v%:M = (u - v)%:M.
Proof. by rewrite raddfB. Qed.

Lemma mulmx_scalar (u v : R) : (u%:M : 'M[R]_1) *m v%:M = (u * v)%:M.
Proof. by rewrite -scalar_mxM. Qed.

Lemma zeromx_scalar : (0 : 'M[R]_1) = 0%:M.
Proof. by rewrite raddf0. Qed.

Lemma np_solve_scalar (u v : R) :
  u != 0 -> np_solve (u%:M : 'M[R]_1) v%:M = Return (v / u)%:M.
Proof.
move=> u0; rewrite /np_solve unit_scalar1 // invmx_scalar mulmx_scalar.
by rewrite mulrC.
Qed.

Ltac mx1 :=
  rewrite ?(addmx_scalar, submx_scalar, mulmx_scalar, scale_scalar_mx,
            dot_scalar, outer_scalar, zeromx_scalar, tr_scalar_mx,
            invmx_scalar).

Lemma pcg_body_scalar (a be m xi c rho : R) (k : Z) :
  let r' := be - a * xi in
  let s := m * r' in
  let alpha := s * r' in
  let d := (1 - c * a) * s in
  let eta := s * (a * d) in
  pcg_body (a%:M : 'M[R]_1) be%:M m%:M (PcgState xi%:M c%:M rho%:M k) =
  (w <- fdiv 1 eta ;;
   w' <- fdiv alpha eta ;;
   Return (PcgState (xi + w' * d)%:M (c + w * (d * d))%:M r'%:M (k + 1))).
Proof.
by rewrite /pcg_body /=; mx1; rewrite /fdiv; case: ifP => //= _; mx1.
Qed.

Section ScalarRuns.
Implicit Types a be m : R.

Lemma pcg_body_scalar_first a be m rho k :
  a != 0 -> be != 0 -> m != 0 ->
  pcg_body (a%:M : 'M[R]_1) be%:M m%:M (PcgState 0%:M 0%:M rho%:M k) =
  Return (PcgState (be / a)%:M (1 / a)%:M be%:M (k + 1)).
Proof.
move=> /Req0 a0 /Req0 b0 /Req0 m0; rewrite pcg_body_scalar /=.
have eta0 : m * (be - a * 0) * (a * ((1 - 0 * a) * (m * (be - a * 0)))) != 0.
  apply: Rneq0; to_reals.
  have -> : (m * (be + - (a * 0))
               * (a * ((1 + - (0 * a)) * (m * (be + - (a * 0)))))
             = (m * be) * (m * be) * a)%Re by ring.
  by repeat apply: Rmult_integral_contrapositive_currified.
rewrite !fdiv_def //=; congr (Return (PcgState _ _ _ _)); congr (_%:M).
- by to_reals; field; do ?split.
- by to_reals; field; do ?split.
- by rewrite mulr0 subr0.
Qed.

Lemma pcg_body_scalar_second a be m rho k :
  a != 0 ->
  pcg_body (a%:M : 'M[R]_1) be%:M m%:M
           (PcgState (be / a)%:M (1 / a)%:M rho%:M k) =
  NotFinite.
Proof.
move=> /Req0 a0; rewrite pcg_body_scalar /=.
have -> : m * (be - a * (be / a))
           * (a * ((1 - 1 / a * a) * (m * (be - a * (be / a)))))
           = 0.
  by to_reals; field.
by rewrite fdiv0.
Qed.
End ScalarRuns.

(** ** The loop of [pcg] *)

Section PcgLoop.

Variable n : nat.
Variables (A : 'M[R]_n) (b : 'cV[R]_n) (invP : 'M[R]_n).
Implicit Types st : pcg_state n.

Lemma pcg_loop_exit0 fuel maxiter tol st :
  ~ (norm (r st) > tol)%Re -> pcg_loop fuel A b invP maxiter tol st = Return st.
Proof. by case: fuel => [|fuel] /=; case: Rgt_dec. Qed.

Lemma pcg_loop_step fuel maxiter tol st :
  (norm (r st) > tol)%Re ->
  pcg_loop fuel.+1 A b invP maxiter tol st =
  (st' <- pcg_body A b invP st ;;
   if (i st' =? maxiter)%Z then Return st'
   else pcg_loop fuel A b invP maxiter tol st').
Proof. by move=> /=; case: Rgt_dec. Qed.

Lemma pcg_bodyP st st' :
  pcg_body A b invP st = Return st' ->
  let rr := b - A *m x st in
  let s := invP *m rr in
  let d := (1%:M - C st *m A) *m s in
  let eta := dot s (A *m d) in
  [/\ eta != 0, x st' = x st + (dot s rr / eta) *: d,
      C st' = C st + (1 / eta) *: outer d d, r st' = rr
    & i st' = (i st + 1)%Z].
Proof.
rewrite /pcg_body /fdiv; case: ifP => //= /negbT eta0 [<-] /=.
by split.
Qed.

Lemma pcg_body_cases st :
  pcg_body A b invP st = NotFinite \/
  exists st', pcg_body A b invP st = Return st'.
Proof.
rewrite /pcg_body /fdiv; case: ifP => _ /=; first by left.
by right; eexists.
Qed.

Lemma pcg_body_sym st st' :
  pcg_body A b invP st = Return st' -> (C st)^T = C st -> (C st')^T = C st'.
Proof.
move=> /pcg_bodyP [_ _ -> _ _] Csym.
by rewrite linearD linearZ /= Csym /outer trmx_mul trmxK.
Qed.

Lemma pcg_iterS k st :
  pcg_iter k.+1 A b invP st =
  (st' <- pcg_body A b invP st ;; pcg_iter k A b invP st').
Proof.
elim: k => [|k IHk] /=; first by case: pcg_body.
by move: IHk => /= ->; case: pcg_body.
Qed.

Lemma pcg_iter_i k st st' :
  pcg_iter k A b invP st = Return st' -> i st' = (i st + Z.of_nat k)%Z.
Proof.
elim: k st' => [|k IHk] st' /=; first by case=> <-; lia.
case E: pcg_iter => [st1|||] //= /pcg_bodyP [_ _ _ _ ->].
by rewrite (IHk _ E); lia.
Qed.

Lemma pcg_iter_sym k st st' :
  pcg_iter k A b invP st = Return st' -> (C st)^T = C st -> (C st')^T = C st'.
Proof.
elim: k st' => [|k IHk] st' /=; first by case=> <-.
case E: pcg_iter => [st1|||] //= /pcg_body_sym H /(IHk _ E); exact: H.
Qed.

(** What a returning loop has done: some number [k] of passes, each
    entered on a failed tolerance test; it left through the test at the
    head, or through the [return] inside the body. *)
Lemma pcg_loop_returns fuel maxiter tol st st' :
  pcg_loop fuel A b invP maxiter tol st = Return st' ->
  exists k : nat,
    [/\ pcg_iter k A b invP st = Return st',
        forall j sj, (j < k)%N -> pcg_iter j A b invP st = Return sj ->
          (norm (r sj) > tol)%Re
      & ~ (norm (r st') > tol)%Re \/ ((0 < k)%N /\ i st' = maxiter)].
Proof.
elim: fuel st => [|fuel IHf] st /=.
  case: Rgt_dec => // ntol [<-]; exists 0%N; split=> //; by left.
case: Rgt_dec => [gtol|ntol [<-]]; last by exists 0%N; split=> //; left.
case E: pcg_body => [st1|||] //=; case: Z.eqb_spec => [imax [<-]|_ /IHf].
  exists 1%N; split; [by rewrite /= E | | by right].
  by move=> [|j] sj; [move=> _ [<-] | rewrite ltnS ltn0].
case=> k [kst' kgt kend]; exists k.+1; split.
- by rewrite pcg_iterS E.
- case=> [|j] sj; first by move=> _ [<-].
  by rewrite pcg_iterS E /= ltnS; exact: kgt.
- by case: kend => [|[_ ->]]; [left | right].
Qed.

(** While the counter is below a positive [maxiter], [maxiter - i]
    units of fuel are enough. *)
Lemma pcg_loop_fuel fuel maxiter tol st :
  (i st < maxiter)%Z -> (Z.to_nat (maxiter - i st) <= fuel)%N ->
  pcg_loop fuel A b invP maxiter tol st <> OutOfFuel.
Proof.
elim: fuel st => [|fuel IHf] st ilt /leP fuel_ok /=; first by lia.
case: Rgt_dec => //= _.
case: (pcg_body_cases st) => [->|[st1 E]] //; rewrite E /=.
have [_ _ _ _ i1] := pcg_bodyP E.
case: Z.eqb_spec => // ne; apply: IHf; first by lia.
by apply/leP; lia.
Qed.

(** The run when every one of the first [m] tolerance tests fails and
    the counter meets [maxiter] after [m] passes. *)
Lemma pcg_loop_cap (m : nat) fuel maxiter tol st :
  (0 < m)%N -> (m <= fuel)%N -> (i st + Z.of_nat m = maxiter)%Z ->
  (forall j sj, (j < m)%N -> pcg_iter j A b invP st = Return sj ->
     (norm (r sj) > tol)%Re) ->
  pcg_loop fuel A b invP maxiter tol st = pcg_iter m A b invP st.
Proof.
elim: m fuel st => [|m IHm] [|fuel] st //= _ mfuel imax unconv.
have gt0 : (norm (r st) > tol)%Re by apply: (unconv 0%N).
rewrite -/(pcg_iter m.+1 A b invP st) pcg_iterS; case: Rgt_dec => //= _.
case E: pcg_body => [st1|||] //=; have [_ _ _ _ i1] := pcg_bodyP E.
case: m IHm mfuel imax unconv => [|m] IHm mfuel imax unconv.
  by rewrite /=; case: Z.eqb_spec => //; lia.
case: Z.eqb_spec => [|_]; first by lia.
apply: IHm => //; first by lia.
move=> j sj jm Ej; apply: (unconv j.+1) => //.
by rewrite pcg_iterS E.
Qed.

End PcgLoop.

(** ** [pcg] as a whole *)

Section PcgTop.

Variable n : nat.
Implicit Types (A : 'M[R]_n) (b : 'cV[R]_n) (P : option (factor n)).

Lemma pcg_runE fuel A b maxiter rtol atol P :
  pcg_run fuel A b maxiter rtol atol P =
  pcg_loop fuel A b (pcg_precond P) (pcg_maxiter n maxiter)
           (pcg_tol b rtol atol) (pcg_init A b).
Proof. by rewrite /pcg_run pcg_invP_returns. Qed.

Lemma pcg_init_r A b : r (pcg_init A b) = b.
Proof. by rewrite /pcg_init /= mulmx0 subr0. Qed.

Lemma pcg_run_small_rhs fuel A b maxiter rtol atol P :
  (norm b <= Rmax (rtol * norm b) atol)%Re ->
  pcg_run fuel A b maxiter rtol atol P = Return (pcg_init A b).
Proof.
move=> small; rewrite pcg_runE pcg_loop_exit0 // pcg_init_r /pcg_tol.
by move: small; to_reals; lra.
Qed.

Lemma zero_rhs_small (rtol atol : R) :
  (norm (0 : 'cV[R]_n) <= Rmax (rtol * norm (0 : 'cV[R]_n)) atol)%Re.
Proof.
by rewrite norm0; have := Rmax_l (rtol * 0) atol; to_reals; lra.
Qed.

End PcgTop.

Section ScalarPcg.
Implicit Types a be : R.

Lemma pcg_precond_default n :
  pcg_precond (None : option (factor n)) = ((ridge + 1)^-1)%:M.
Proof.
by rewrite /pcg_precond /= trmx1 mulmx1 scalemx1 -raddfD /= invmx_scalar.
Qed.

Lemma ridge1_neq0 : (ridge + 1)^-1 != 0.
Proof.
by rewrite invr_eq0; apply: Rneq0; have := ridge_gt0; to_reals; lra.
Qed.

(** [pcg] on a 1 x 1 system with the default [P]: the first pass is
    exact, a second pass divides by zero. *)
Lemma pcg_scalar_run a be (maxiter : option Z) (rtol atol : R)
    (fuel : nat) :
  a != 0 -> be != 0 ->
  (norm (be%:M : 'cV[R]_1) > pcg_tol be%:M rtol atol)%Re ->
  pcg_run fuel.+2 (a%:M : 'M[R]_1) be%:M maxiter rtol atol None =
  if (pcg_maxiter 1 maxiter =? 1)%Z
  then Return (PcgState (be / a)%:M (1 / a)%:M be%:M 1)
  else NotFinite.
Proof.
move=> a0 b0 gt; rewrite pcg_runE pcg_precond_default.
have r0 : r (pcg_init (a%:M : 'M[R]_1) be%:M) = be%:M by rewrite pcg_init_r.
rewrite pcg_loop_step ?r0 //.
have -> : pcg_init (a%:M : 'M[R]_1) be%:M = PcgState 0%:M 0%:M be%:M 0.
  by rewrite /pcg_init mulmx0 subr0 zeromx_scalar.
rewrite pcg_body_scalar_first ?ridge1_neq0 // bind_Return.
set st1 := PcgState _ _ _ _.
have -> : (i st1 =? pcg_maxiter 1 maxiter)%Z = (pcg_maxiter 1 maxiter =? 1)%Z.
  by rewrite Z.eqb_sym.
case: Z.eqb_spec => // _.
by rewrite pcg_loop_step // pcg_body_scalar_second.
Qed.

End ScalarPcg.

(** ** 2 x 2 systems with a diagonal matrix *)

Section TwoByTwo.

Lemma vec2D u v p q : vec2 u v + vec2 p q = vec2 (u + p) (v + q).
Proof. by apply/colP => j; rewrite !mxE; case: ifP. Qed.

Lemma vec2N u v : - vec2 u v = vec2 (- u) (- v).
Proof. by apply/colP => j; rewrite !mxE; case: ifP. Qed.

Lemma vec2Z c u v : c *: vec2 u v = vec2 (c * u) (c * v).
Proof. by apply/colP => j; rewrite !mxE; case: ifP. Qed.

Lemma dot_vec2 u v p q : dot (vec2 u v) (vec2 p q) = u * p + v * q.
Proof. by rewrite dotE !big_ord_recl big_ord0 !mxE /= addr0. Qed.

Lemma diag2_mul u v p q : diag2 u v *m vec2 p q = vec2 (u * p) (v * q).
Proof.
apply/colP => j; rewrite !mxE !big_ord_recl big_ord0 !mxE /= addr0.
by case: j => [[|[|j]]] //= lt; rewrite ?mul0r ?add0r ?addr0.
Qed.

End TwoByTwo.

Lemma vec2_eta (w : 'cV[R]_2) : w = vec2 (w 0 0) (w ord_max 0).
Proof.
apply/colP => j; rewrite !mxE.
by case: j => [[|[|j]]] //= lt; congr (w _ _); apply: val_inj.
Qed.

Lemma vec2_eq0 (u v : R) : vec2 u v = 0 -> u = 0 /\ v = 0.
Proof.
move=> e0; split.
  by have := congr1 (fun w : 'cV[R]_2 => w 0 0) e0; rewrite !mxE.
by have := congr1 (fun w : 'cV[R]_2 => w ord_max 0) e0; rewrite !mxE.
Qed.

Section TwoByTwoRun.

Variable m : R.
Hypothesis m_neq0 : m != 0.

Let A2 : 'M[R]_2 := diag2 1 2%Re.
Let b2 : 'cV[R]_2 := vec2 1 1.

Lemma pcg_body_vec (A : 'M[R]_2) (b : 'cV[R]_2) (st : pcg_state 2) :
  pcg_body A b m%:M st =
  (let r := b - A *m x st in
   let s := m *: r in
   let alpha := dot s r in
   let d := s - C st *m (A *m s) in
   let eta := dot s (A *m d) in
   w <- fdiv 1 eta ;;
   w' <- fdiv alpha eta ;;
   Return (PcgState (x st + w' *: d) (C st + w *: outer d d) r (i st + 1))).
Proof. by rewrite /pcg_body mul_scalar_mx mulmxBl mul1mx -mulmxA. Qed.

Lemma pcg_body2_first :
  pcg_body A2 b2 m%:M (PcgState 0 0 b2 0) =
  Return (PcgState (vec2 (2%Re / 3%Re) (2%Re / 3%Re)) (C_first m) b2 1).
Proof.
have /Req0 m0 := m_neq0.
rewrite pcg_body_vec /= mulmx0 subr0 mul0mx subr0.
rewrite /b2 /A2 !(vec2Z, diag2_mul, dot_vec2).
have eta0 : 3%Re * (m * m) != 0.
  apply: Rneq0; to_reals.
  by have := Rmult_integral_contrapositive_currified _ _ m0 m0; lra.
rewrite !(fdiv_eq _ eta0) /=; try by to_reals; ring.
rewrite !add0r vec2Z; congr (Return (PcgState _ _ _ _)).
- by congr (vec2 _ _); to_reals; field.
- rewrite /C_first; congr (_ *: outer (vec2 _ _) (vec2 _ _)).
  + by to_reals; ring.
  + by to_reals; ring.
  + by to_reals; ring.
  + by to_reals; ring.
Qed.

Lemma pcg_body2_second :
  pcg_body A2 b2 m%:M
           (PcgState (vec2 (2%Re / 3%Re) (2%Re / 3%Re)) (C_first m) b2 1) =
  Return (PcgState (vec2 1 (1 / 2%Re)) (C_second m)
                   (vec2 (1 / 3%Re) (- (1 / 3%Re))) 2).
Proof.
have /Req0 m0 := m_neq0.
have mm0 : (m * m)%Re <> 0%Re.
  exact: Rmult_integral_contrapositive_currified.
rewrite pcg_body_vec /= /b2 /A2 /C_first.
rewrite !(vec2Z, vec2N, vec2D, diag2_mul, dot_vec2, outer_mul, =^~ scalemxAl).
have eta0 : 8%Re / 27%Re * (m * m) != 0.
  by apply: Rneq0; to_reals; lra.
rewrite !(fdiv_eq _ eta0) /=; try by to_reals; field.
have d2 u v : u = (4%Re / 9%Re * m)%Re -> v = (- (2%Re / 9%Re) * m)%Re ->
    vec2 u v = d_second m by move=> -> ->.
congr (Return (PcgState _ _ _ _)).
- by rewrite vec2Z vec2D; congr (vec2 _ _); to_reals; field.
- by rewrite /C_second /C_first; congr (_ + _ *: outer _ _);
    apply: d2; to_reals; field.
- by congr (vec2 _ _); to_reals; field.
Qed.

End TwoByTwoRun.

Lemma outer_vec2 (a b c d : R) :
  outer (vec2 a b) (vec2 c d) = mat2 (a * c) (a * d) (b * c) (b * d).
Proof.
apply/matrixP => j k; rewrite /outer !mxE big_ord_recl big_ord0 !mxE addr0.
by case: ifP => _; case: ifP.
Qed.

Lemma mat2Z (e a b c d : R) :
  e *: mat2 a b c d = mat2 (e * a) (e * b) (e * c) (e * d).
Proof. by apply/matrixP => j k; rewrite !mxE; case: ifP => _; case: ifP. Qed.

Lemma mat2D (a b c d a' b' c' d' : R) :
  mat2 a b c d + mat2 a' b' c' d' = mat2 (a + a') (b + b') (c + c') (d + d').
Proof. by apply/matrixP => j k; rewrite !mxE; case: ifP => _; case: ifP. Qed.

Lemma diag2E (u v : R) : diag2 u v = mat2 u 0 0 v.
Proof.
apply/matrixP => j k; rewrite !mxE.
by case: j k => [[|[|j]] ltj] [[|[|k]] ltk].
Qed.

Lemma C_firstE (m : R) :
  m != 0 -> C_first m = mat2 (1 / 3%Re) (1 / 3%Re) (1 / 3%Re) (1 / 3%Re).
Proof.
move=> /Req0 m0; rewrite /C_first outer_vec2 mat2Z.
by congr (mat2 _ _ _ _); to_reals; field.
Qed.

Lemma C_secondE (m : R) : m != 0 -> C_second m = diag2 1 (1 / 2%Re).
Proof.
move=> m0; rewrite /C_second C_firstE // /d_second outer_vec2 mat2Z mat2D.
rewrite diag2E.
by move/Req0: m0 => m0; congr (mat2 _ _ _ _); to_reals; field.
Qed.

Section TwoByTwoCap0.

Lemma norm_vec2 u v : norm (vec2 u v) = sqrt (u * u + v * v).
Proof. by rewrite /norm dot_vec2. Qed.

Lemma sqrt2_ge1 : (1 <= sqrt (1 * 1 + 1 * 1))%Re.
Proof. by rewrite -[X in (X <= _)%Re]sqrt_1; apply: sqrt_le_1_alt; lra. Qed.

Lemma sqrt_quarter : sqrt (1 / 4) = (1 / 2)%Re.
Proof. by apply: sqrt_lem_1; lra. Qed.

Lemma rhs2_large (atol : R) :
  (atol < 1)%Re ->
  (norm (vec2 1 1) > pcg_tol (vec2 1 1) default_rtol atol)%Re.
Proof.
move=> atol1; rewrite /pcg_tol norm_vec2 /default_rtol; have := sqrt2_ge1.
move: (sqrt _) => s s1; rewrite /Rmax; case: Rle_dec => _; to_reals; nra.
Qed.

Lemma residual2_small :
  ~ (norm (vec2 (1 / 3%Re) (- (1 / 3%Re)))
       > pcg_tol (vec2 1 1) default_rtol (1 / 2)%Re)%Re.
Proof.
rewrite /pcg_tol norm_vec2.
have le : (sqrt (1 / 3 * (1 / 3) + - (1 / 3) * - (1 / 3)) <= 1 / 2)%Re.
  by rewrite -sqrt_quarter; apply: sqrt_le_1_alt; lra.
by have := Rmax_r (default_rtol * norm (vec2 1 1)) (1 / 2)%Re; to_reals; lra.
Qed.

(** [pcg] on [A = diag(1, 2)], [b = (1, 1)], [atol = 0.5] and the
    default [P]: the first pass leaves the residual [(1/3, -1/3)], the
    second pass is exact, and the test at the head of the third pass
    sees the residual of the first. *)
Lemma pcg_two_passes (fuel : nat) (maxiter : Z) :
  maxiter <> 1%Z -> maxiter <> 2%Z ->
  pcg_run fuel.+2 (diag2 1 2%Re) (vec2 1 1) (Some maxiter)
          default_rtol (1 / 2)%Re None =
  Return (PcgState (vec2 1 (1 / 2%Re)) (diag2 1 (1 / 2%Re))
                   (vec2 (1 / 3%Re) (- (1 / 3%Re))) 2).
Proof.
move=> ne1 ne2; rewrite -(C_secondE ridge1_neq0) pcg_runE pcg_precond_default.
have -> : pcg_init (diag2 1 2%Re) (vec2 1 1) = PcgState 0 0 (vec2 1 1) 0.
  by rewrite /pcg_init mulmx0 subr0.
set st0 := PcgState 0 0 (vec2 1 1) 0.
have gt0 : (norm (r st0) > pcg_tol (vec2 1 1) default_rtol (1 / 2)%Re)%Re.
  by apply: rhs2_large; lra.
rewrite (pcg_loop_step _ _ _ _ _ gt0) pcg_body2_first ?ridge1_neq0 //.
rewrite bind_Return.
set st1 := PcgState _ _ _ 1.
have -> : (i st1 =? maxiter)%Z = false by apply/Z.eqb_spec => /= e; apply: ne1.
have gt1 : (norm (r st1) > pcg_tol (vec2 1 1) default_rtol (1 / 2)%Re)%Re.
  by apply: rhs2_large; lra.
rewrite (pcg_loop_step _ _ _ _ _ gt1) pcg_body2_second ?ridge1_neq0 //.
rewrite bind_Return.
set st2 := PcgState _ _ _ 2.
have -> : (i st2 =? maxiter)%Z = false by apply/Z.eqb_spec => /= e; apply: ne2.
by rewrite pcg_loop_exit0 //; exact: residual2_small.
Qed.

End TwoByTwoCap0.

(** With [maxiter >= 1] the loop of [pcg] makes at most [maxiter]
    passes, and [maxiter] units of fuel are enough. *)
Lemma pcg_loop_bounded n (A : 'M[R]_n) (b : 'cV[R]_n) (invP : 'M[R]_n)
    fuel maxiter tol (st st' : pcg_state n) :
  (i st < maxiter)%Z ->
  pcg_loop fuel A b invP maxiter tol st = Return st' ->
  (i st <= i st' <= maxiter)%Z.
Proof.
elim: fuel st => [|fuel IHf] st ilt /=; case: Rgt_dec => //= _.
- by case=> <-; lia.
- case E: pcg_body => [st1|||] //=; have [_ _ _ _ i1] := pcg_bodyP E.
  case: Z.eqb_spec => [e [<-]|ne /IHf]; first by lia.
  by move=> H; have := H ltac:(lia); lia.
- by case=> <-; lia.
Qed.

Lemma pcg_capped_terminates n (A : 'M[R]_n) (b : 'cV[R]_n) fuel
    (maxiter : option Z) (rtol atol : R) (P : option (factor n)) :
  (1 <= pcg_maxiter n maxiter)%Z ->
  (Z.to_nat (pcg_maxiter n maxiter) <= fuel)%N ->
  pcg_run fuel A b maxiter rtol atol P <> OutOfFuel /\
  forall st, pcg_run fuel A b maxiter rtol atol P = Return st ->
    (0 <= i st <= pcg_maxiter n maxiter)%Z.
Proof.
move=> m1 mfuel; rewrite pcg_runE; split.
  by apply: pcg_loop_fuel; rewrite /= ?Z.sub_0_r //; lia.
by move=> st /pcg_loop_bounded /=; apply; lia.
Qed.

(** ** Claims on [pcg] *)

(** C9.  For every square [A] and every [b] with
    [||b|| <= max(rtol * ||b||, atol)], whatever [maxiter], [P] and the
    fuel, [pcg] makes no pass through its loop (the counter of the final
    state is 0) and returns the zero vector and the zero matrix; [b = 0]
    is such a right-hand side for every [rtol] and [atol]. *)
Theorem pcg_zero_iterations n (A : 'M[R]_n) (b : 'cV[R]_n) (fuel : nat)
    (maxiter : option Z) (rtol atol : R) (P : option (factor n)) :
  ((norm b <= Rmax (rtol * norm b) atol)%Re ->
     pcg_run fuel A b maxiter rtol atol P
       = Return {| x := 0; C := 0; r := b; i := 0 |} /\
     pcg fuel A b maxiter rtol atol P = Return (0, 0)) /\
  pcg fuel A 0 maxiter rtol atol P = Return (0, 0).
Proof.
have run0 b' : (norm b' <= Rmax (rtol * norm b') atol)%Re ->
    pcg_run fuel A b' maxiter rtol atol P
      = Return {| x := 0; C := 0; r := b'; i := 0 |}.
  by move=> /pcg_run_small_rhs ->; rewrite /pcg_init mulmx0 subr0.
split; first by move=> small; rewrite /pcg run0.
by rewrite /pcg run0 //; exact: zero_rhs_small.
Qed.

(** C9, witness: [A = [[1]]], [b = [0]], no fuel. *)
Lemma pcg_zero_iterations_witness :
  (pcg_run 0 (1%:M : 'M[R]_1) 0 None default_rtol default_atol None
     = Return {| x := 0; C := 0; r := 0; i := 0 |} /\
   pcg 0 (1%:M : 'M[R]_1) 0 None default_rtol default_atol None
     = Return (0, 0)) /\
  pcg 0 (1%:M : 'M[R]_1) 0 None default_rtol default_atol None
     = Return (0, 0).
Proof.
have [H1 H2] :=
  @pcg_zero_iterations 1 1%:M 0 0 None default_rtol default_atol None.
by split=> //; apply: H1; exact: zero_rhs_small.
Defined.

(** C8.  In [pcg] the inverse estimate [C] is symmetric after every
    pass through the body, and the matrix [C] that [pcg] returns is
    symmetric, for every input on which it returns. *)
Theorem pcg_C_symmetric n (A : 'M[R]_n) (b : 'cV[R]_n) :
  (forall (k : nat) (invP : 'M[R]_n) (st : pcg_state n),
     pcg_iter k A b invP (pcg_init A b) = Return st -> (C st)^T = C st) /\
  (forall (fuel : nat) (maxiter : option Z) (rtol atol : R)
          (P : option (factor n)) (xs : 'cV[R]_n) (Cs : 'M[R]_n),
     pcg fuel A b maxiter rtol atol P = Return (xs, Cs) -> Cs^T = Cs).
Proof.
have sym0 : (C (pcg_init A b))^T = C (pcg_init A b) by rewrite /= trmx0.
split=> [k invP st /pcg_iter_sym|fuel maxiter rtol atol P xs Cs]; first exact.
rewrite /pcg pcg_runE; case E: pcg_loop => [st|||] //= [_ <-].
have [k [/pcg_iter_sym Hk _ _]] := pcg_loop_returns E.
exact: Hk.
Qed.

(** C8, witness: the matrix returned for [A = diag(1, 2)],
    [b = (1, 1)], [maxiter = 5], [atol = 0.5], after two passes. *)
Lemma pcg_C_symmetric_witness :
  (diag2 1 (1 / 2%Re))^T = diag2 1 (1 / 2%Re).
Proof.
have [_ H] := pcg_C_symmetric (diag2 1 2%Re) (vec2 1 1).
apply: (H 2%N (Some 5%Z) default_rtol (1 / 2)%Re None (vec2 1 (1 / 2%Re))).
by rewrite /pcg (@pcg_two_passes 0 5).
Defined.

(** C6, the code at the failing input [A = diag(1, 2)], [b = (1, 1)],
    [maxiter = 0], [atol = 0.5], default [rtol] and [P].  The loop is not
    stopped by the cap: [pcg] makes two passes (the counter of the final
    state is 2) and returns the solution [(1, 0.5)] of the system, not the
    state [(0, 0)] it had when the counter was at [maxiter]. *)
Theorem pcg_cap0_two_passes (fuel : nat) :
  let A0 := diag2 1 2%Re in
  let b0 := vec2 1 1 in
  [/\ pcg_maxiter 2 (Some 0%Z) = 0%Z,
      pcg_run fuel.+2 A0 b0 (Some 0%Z) default_rtol (1 / 2)%Re None
        = Return (PcgState (vec2 1 (1 / 2%Re)) (diag2 1 (1 / 2%Re))
                           (vec2 (1 / 3%Re) (- (1 / 3%Re))) 2),
      pcg fuel.+2 A0 b0 (Some 0%Z) default_rtol (1 / 2)%Re None
        = Return (vec2 1 (1 / 2%Re), diag2 1 (1 / 2%Re))
    & A0 *m vec2 1 (1 / 2%Re) = b0].
Proof.
move=> A0 b0; split=> //.
- exact: pcg_two_passes.
- by rewrite /pcg pcg_two_passes.
- by rewrite diag2_mul; congr (vec2 _ _); to_reals; field.
Qed.

(** ** Further properties of [mat_inv_lemma] and [pcg] *)

Lemma dotC n (u v : 'cV[R]_n) : dot u v = dot v u.
Proof. by rewrite !dotE; apply: eq_bigr => j _; rewrite mulrC. Qed.

Lemma dot_mulmx m n (T : 'M[R]_(m, n)) (u : 'cV[R]_m) (v : 'cV[R]_n) :
  dot u (T *m v) = dot (T^T *m u) v.
Proof. by rewrite /dot trmx_mul trmxK mulmxA. Qed.

Lemma dot0l n (v : 'cV[R]_n) : dot 0 v = 0.
Proof. by rewrite /dot trmx0 mul0mx mxE. Qed.

Lemma dot0r n (v : 'cV[R]_n) : dot v 0 = 0.
Proof. by rewrite /dot mulmx0 mxE. Qed.

Lemma dot_gt0 n (v : 'cV[R]_n) : v != 0 -> (0 < dot v v)%Re.
Proof.
move=> v0; have := dot_ge0 v; case: (Req_dec_T (dot v v) 0) => [/dot_eq0 e|].
  by rewrite e eqxx in v0.
by to_reals; lra.
Qed.

(** X1.  [mat_inv_lemma(A, U, C, V)] returns exactly when [A], [C] and
    [A + U C V^T] are all three invertible, and then it returns the
    inverse of [A + U C V^T]; on every other input it raises numpy's
    LinAlgError. *)
Theorem mat_inv_lemma_outcome n k (A : 'M[R]_n) (U : 'M[R]_(n, k))
    (C : 'M[R]_k) (V : 'M[R]_(n, k)) :
  mat_inv_lemma A U C V =
  if [&& A \in unitmx, C \in unitmx & A + U *m C *m V^T \in unitmx]
  then Return (invmx (A + U *m C *m V^T)) else Raise LinAlgError.
Proof.
case Au: (A \in unitmx); last by rewrite /mat_inv_lemma /np_inv Au.
case Cu: (C \in unitmx); last by rewrite /mat_inv_lemma /np_inv Au Cu.
rewrite -/(updated A U C V) /=.
case Tu: (updated A U C V \in unitmx).
  have Su := capacitance_unit Au Cu Tu.
  by rewrite mat_inv_lemmaE // woodbury_inv.
rewrite /mat_inv_lemma !np_inv_unit //= np_inv_singular //.
by apply/negP => /(updated_unit Au Cu); rewrite Tu.
Qed.

Lemma pcg_precond_sym n (P : option (factor n)) :
  (pcg_precond P)^T = pcg_precond P.
Proof.
rewrite /pcg_precond; move: (projT2 _) => P0 /=.
by rewrite trmx_inv linearD linearZ /= trmx1 trmx_mul trmxK.
Qed.

Lemma pcg_precond_pd n (P : option (factor n)) (r0 : 'cV[R]_n) :
  r0 != 0 -> (0 < dot (pcg_precond P *m r0) r0)%Re.
Proof.
move=> r_neq0; rewrite /pcg_precond; move: (projT2 _) => P0 /=.
set K := ridge *: 1%:M + P0 *m P0^T.
have Ku : K \in unitmx by exact: ridge_gram_unit ridge_gt0.
set y := invmx K *m r0.
have -> : r0 = K *m y by rewrite mulKVmx.
have y0 : y != 0.
  by apply: contraNneq r_neq0 => e; rewrite -[r0](mulKVmx Ku) -/y e mulmx0.
rewrite /K mulmxDl dotDr -scalemxAl mul1mx dotZr.
have -> : dot y (P0 *m P0^T *m y) = dot (P0^T *m y) (P0^T *m y).
  by rewrite -mulmxA dot_mulmx.
have := dot_gt0 y0; have := dot_ge0 (P0^T *m y); have := ridge_gt0.
by to_reals; nra.
Qed.

(** X2.  The matrix [invP] of [pcg] is symmetric and positive
    definite, for every [P]: the observation [alpha = s^T r], with
    [s = invP r], is positive whenever the residual [r] is not zero. *)
Theorem pcg_invP_posdef n (P : option (factor n)) :
  exists W : 'M[R]_n,
    [/\ pcg_invP P = Return W, W^T = W
      & forall r0 : 'cV[R]_n, r0 != 0 -> (0 < dot (W *m r0) r0)%Re].
Proof.
exists (pcg_precond P); split; first exact: pcg_invP_returns.
  exact: pcg_precond_sym.
exact: pcg_precond_pd.
Qed.

Lemma dotZl n a (u v : 'cV[R]_n) : dot (a *: u) v = a * dot u v.
Proof. by rewrite dotC dotZr dotC. Qed.

Lemma outerZ n a c (u v : 'cV[R]_n) :
  outer (a *: u) (c *: v) = (a * c) *: outer u v.
Proof.
by rewrite /outer linearZ /= -scalemxAl -scalemxAr scalerA.
Qed.

Section PcgMore.

Variable n : nat.
Variables (A : 'M[R]_n) (b : 'cV[R]_n).
Implicit Types (invP : 'M[R]_n) (st : pcg_state n).

Lemma pcg_loop_cases fuel invP maxiter tol st :
  [\/ exists st', pcg_loop fuel A b invP maxiter tol st = Return st',
      pcg_loop fuel A b invP maxiter tol st = NotFinite
    | pcg_loop fuel A b invP maxiter tol st = OutOfFuel].
Proof.
elim: fuel st => [|fuel IHf] st /=.
  by case: Rgt_dec => /= _; [constructor 3 | constructor 1; eexists].
case: Rgt_dec => /= _; last by constructor 1; eexists.
case: (pcg_body_cases A b invP st) => [->|[st1 ->]] /=; first by constructor 2.
by case: Z.eqb_spec => _; [constructor 1; eexists | exact: IHf].
Qed.

(** Scaling [invP] by a non-zero factor changes no iterate. *)
Lemma pcg_body_scale (c : R) invP st :
  c != 0 -> pcg_body A b (c *: invP) st = pcg_body A b invP st.
Proof.
move=> c0; rewrite /pcg_body; cbv zeta.
set rr := b - A *m x st; rewrite -scalemxAl; set s := invP *m rr.
rewrite -scalemxAr; set d := (1%:M - C st *m A) *m s.
rewrite -scalemxAr !dotZl dotZr outerZ.
have [eta0|eta0] := eqVneq (dot s (A *m d)) 0.
  by rewrite eta0 !mulr0 !fdiv0.
have cc0 : c * (c * dot s (A *m d)) != 0 by rewrite !mulf_neq0.
have Ex (al et : R) : c <> 0%Re -> et <> 0%Re ->
    (c * al / (c * (c * et)) * c = al / et)%Re by move=> ? ?; field.
have EC (et : R) : c <> 0%Re -> et <> 0%Re ->
    (1 / (c * (c * et)) * (c * c) = 1 / et)%Re by move=> ? ?; field.
rewrite !fdiv_def //= !scalerA; congr (Return (PcgState _ _ _ _)).
  by congr (_ + _ *: _); apply: Ex; exact: Req0.
by congr (_ + _ *: _); apply: EC; exact: Req0.
Qed.

Lemma pcg_loop_scale (c : R) fuel invP maxiter tol st :
  c != 0 ->
  pcg_loop fuel A b (c *: invP) maxiter tol st =
  pcg_loop fuel A b invP maxiter tol st.
Proof.
move=> c0; elim: fuel st => [|fuel IHf] st //=.
case: Rgt_dec => //= _; rewrite pcg_body_scale //.
by case: pcg_body => //= st1; rewrite IHf.
Qed.

(** An iterate that solves the system leaves nothing to divide by. *)
Lemma pcg_body_exact invP st :
  A *m x st = b -> pcg_body A b invP st = NotFinite.
Proof.
by move=> e; rewrite /pcg_body; cbv zeta; rewrite e subrr !mulmx0 dot0l fdiv0.
Qed.

(** For a symmetric [A] the pass keeps [x = C b]. *)
Lemma pcg_body_xCb invP st st' :
  A^T = A -> (C st)^T = C st -> x st = C st *m b ->
  pcg_body A b invP st = Return st' -> x st' = C st' *m b.
Proof.
move=> Asym Csym xCb /pcg_bodyP.
set rr := b - A *m x st; set s := invP *m rr.
set d := (1%:M - C st *m A) *m s; set eta := dot s (A *m d).
case=> _ -> -> _ _.
rewrite [RHS]mulmxDl -xCb -scalemxAl outer_mul scalerA; congr (_ + _ *: _).
rewrite mul1r mulrC; congr (_ * _).
rewrite /d [RHS]dotC dot_mulmx [(_ - _)^T]linearB /= trmx1 trmx_mul Asym Csym.
by rewrite mulmxBl mul1mx -mulmxA -xCb dotC.
Qed.

Lemma pcg_iter_xCb k invP st st' :
  A^T = A -> (C st)^T = C st -> x st = C st *m b ->
  pcg_iter k A b invP st = Return st' -> x st' = C st' *m b.
Proof.
move=> Asym Csym xCb; elim: k st' => [|k IHk] st' /=; first by case=> <-.
case E: pcg_iter => [st1|||] //=; apply: pcg_body_xCb (IHk _ E) => //.
exact: pcg_iter_sym E Csym.
Qed.

(** Passes that neither meet the tolerance nor the cap are passed
    through. *)
Lemma pcg_loop_skip k fuel invP maxiter tol st sk :
  pcg_iter k A b invP st = Return sk ->
  (forall j sj, (j < k)%N -> pcg_iter j A b invP st = Return sj ->
     (norm (r sj) > tol)%Re) ->
  ~ (i st < maxiter <= i st + Z.of_nat k)%Z ->
  pcg_loop (k + fuel) A b invP maxiter tol st =
  pcg_loop fuel A b invP maxiter tol sk.
Proof.
elim: k st => [|k IHk] st; first by case=> ->.
rewrite pcg_iterS => Ek unconv nocap.
have gt0 : (norm (r st) > tol)%Re by apply: (unconv 0%N).
rewrite addSn pcg_loop_step //.
case E: pcg_body Ek => [st1|||] //; rewrite !bind_Return => Ek.
have [_ _ _ _ i1] := pcg_bodyP E.
case: Z.eqb_spec => [e|_]; first by case: nocap; lia.
apply: IHk => //; last by lia.
by move=> j sj jk Ej; apply: (unconv j.+1) => //; rewrite pcg_iterS E.
Qed.

End PcgMore.

(** X3.  [pcg] raises no exception, on any input: the preconditioner
    set-up cannot fail, and the loop contains nothing that raises.  A call
    returns, or a division by [eta = 0] leaves the reals, or the loop is
    still running when the fuel is used up. *)
Theorem pcg_never_raises n (A : 'M[R]_n) (b : 'cV[R]_n) (fuel : nat)
    (maxiter : option Z) (rtol atol : R) (P : option (factor n)) :
  [\/ exists xC, pcg fuel A b maxiter rtol atol P = Return xC,
      pcg fuel A b maxiter rtol atol P = NotFinite
    | pcg fuel A b maxiter rtol atol P = OutOfFuel].
Proof.
rewrite /pcg pcg_runE.
case: (pcg_loop_cases A b fuel (pcg_precond P) (pcg_maxiter n maxiter)
         (pcg_tol b rtol atol) (pcg_init A b)) => [[st ->]|->|->] /=.
- by constructor 1; eexists.
- by constructor 2.
- by constructor 3.
Qed.

(** X4.  Without a factor [P] the preconditioner of [pcg] is a
    multiple of the identity, and a scalar factor on [invP] cancels in
    every update: [pcg] with the default [P] runs exactly as the loop with
    [invP = I] does.  The constant [0.1 ** 2] has no influence on the
    result then. *)
Theorem pcg_default_P_unpreconditioned n (A : 'M[R]_n) (b : 'cV[R]_n)
    (fuel : nat) (maxiter : option Z) (rtol atol : R) :
  (forall (c : R) (invP : 'M[R]_n) (st : pcg_state n),
     c != 0 -> pcg_body A b (c *: invP) st = pcg_body A b invP st) /\
  pcg_run fuel A b maxiter rtol atol None =
  pcg_loop fuel A b 1%:M (pcg_maxiter n maxiter) (pcg_tol b rtol atol)
           (pcg_init A b).
Proof.
split; first by move=> c invP st; exact: pcg_body_scale.
rewrite pcg_runE pcg_precond_default -scalemx1 pcg_loop_scale //.
exact: ridge1_neq0.
Qed.

Lemma diag2_sym (u v : R) : (diag2 u v)^T = diag2 u v.
Proof.
apply/matrixP => j k; rewrite !mxE eq_sym.
by case: eqP => // ->.
Qed.

(** X5.  For a symmetric [A] the two results of [pcg] are tied
    together: after every pass [x = C b], and the pair [(x, C)] that [pcg]
    returns satisfies [x = C b]. *)
Theorem pcg_solution_is_C_b n (A : 'M[R]_n) (b : 'cV[R]_n) :
  A^T = A ->
  (forall (k : nat) (invP : 'M[R]_n) (st : pcg_state n),
     pcg_iter k A b invP (pcg_init A b) = Return st -> x st = C st *m b) /\
  (forall (fuel : nat) (maxiter : option Z) (rtol atol : R)
          (P : option (factor n)) (xs : 'cV[R]_n) (Cs : 'M[R]_n),
     pcg fuel A b maxiter rtol atol P = Return (xs, Cs) -> xs = Cs *m b).
Proof.
move=> Asym.
have sym0 : (C (pcg_init A b))^T = C (pcg_init A b) by rewrite /= trmx0.
have xCb0 : x (pcg_init A b) = C (pcg_init A b) *m b by rewrite /= mul0mx.
split=> [k invP st|fuel maxiter rtol atol P xs Cs].
  exact: pcg_iter_xCb.
rewrite /pcg pcg_runE; case E: pcg_loop => [st|||] //= [<- <-].
have [k [Ek _ _]] := pcg_loop_returns E.
exact: pcg_iter_xCb Ek.
Qed.

(** X5, witness: [A = diag(1, 2)], [b = (1, 1)], [maxiter = 5],
    [atol = 0.5]: the returned [x = (1, 1/2)] is [C b] for the returned
    [C = diag(1, 1/2)]. *)
Lemma pcg_solution_is_C_b_witness :
  vec2 1 (1 / 2%Re) = diag2 1 (1 / 2%Re) *m vec2 1 1.
Proof.
have [_ H] := pcg_solution_is_C_b (vec2 1 1) (diag2_sym 1 2%Re).
apply: (H 2%N (Some 5%Z) default_rtol (1 / 2)%Re None).
by rewrite /pcg (@pcg_two_passes 0 5).
Defined.

Section PcgStep.

Variable n : nat.
Variables (A : 'M[R]_n) (b : 'cV[R]_n).
Implicit Types (invP : 'M[R]_n) (st : pcg_state n).

Lemma pcg_body_orth invP st st' :
  pcg_body A b invP st = Return st' ->
  dot (invP *m (b - A *m x st)) (b - A *m x st') = 0.
Proof.
move=> /pcg_bodyP.
set rr := b - A *m x st; set s := invP *m rr.
set d := (1%:M - C st *m A) *m s; set eta := dot s (A *m d).
case=> eta0 -> _ _ _.
rewrite mulmxDr opprD addrA -/rr -scalemxAr -scaleNr dotDr dotZr -/eta.
by rewrite mulNr divfK // subrr.
Qed.

Lemma pcg_body_secant invP st st' :
  A^T = A -> pcg_body A b invP st = Return st' ->
  C st' *m A *m (invP *m (b - A *m x st)) = invP *m (b - A *m x st).
Proof.
move=> Asym /pcg_bodyP.
set rr := b - A *m x st; set s := invP *m rr.
set d := (1%:M - C st *m A) *m s; set eta := dot s (A *m d).
case=> eta0 _ -> _ _.
rewrite -mulmxA mulmxDl -scalemxAl outer_mul scalerA.
have -> : dot d (A *m s) = eta by rewrite dot_mulmx Asym dotC.
by rewrite mul1r mulVf // scale1r /d mulmxBl mul1mx -mulmxA addrC subrK.
Qed.

Lemma pcg_loop_nocap fuel invP (m m' : Z) tol st :
  (m <= i st)%Z -> (m' <= i st)%Z ->
  pcg_loop fuel A b invP m tol st = pcg_loop fuel A b invP m' tol st.
Proof.
elim: fuel st => [|fuel IHf] st //= le le'; case: Rgt_dec => //= _.
case E: pcg_body => [st1|||] //=; have [_ _ _ _ i1] := pcg_bodyP E.
case: Z.eqb_spec => [|_]; first by lia.
case: Z.eqb_spec => [|_]; first by lia.
by apply: IHf; lia.
Qed.

End PcgStep.

(** X6.  One pass of [pcg] chooses the step so that the residual of the
    new [x] is orthogonal to the action [s = invP r]; when [A] is
    symmetric, the new inverse estimate is exact on that action:
    [C A s = s]. *)
Theorem pcg_step_secant n (A : 'M[R]_n) (b : 'cV[R]_n) (invP : 'M[R]_n)
    (st st' : pcg_state n) :
  pcg_body A b invP st = Return st' ->
  let s := invP *m (b - A *m x st) in
  dot s (b - A *m x st') = 0 /\ (A^T = A -> C st' *m A *m s = s).
Proof.
move=> E; split; first exact: pcg_body_orth E.
by move=> Asym; exact: pcg_body_secant E.
Qed.

(** X6, witness: the first pass on [A = diag(1, 2)], [b = (1, 1)] with
    [invP = I], which leads to [x = (2/3, 2/3)]. *)
Lemma pcg_step_secant_witness :
  let s : 'cV[R]_2 := 1%:M *m (vec2 1 1 - diag2 1 2%Re *m 0) in
  dot s (vec2 1 1 - diag2 1 2%Re *m vec2 (2%Re / 3%Re) (2%Re / 3%Re)) = 0 /\
  ((diag2 1 2%Re)^T = diag2 1 2%Re -> C_first 1 *m diag2 1 2%Re *m s = s).
Proof.
exact: (pcg_step_secant (pcg_body2_first (oner_neq0 _))).
Defined.

Lemma unit_rhs_large :
  (norm (1%:M : 'cV[R]_1) > pcg_tol 1%:M default_rtol default_atol)%Re.
Proof.
rewrite /pcg_tol norm_scalar /default_rtol /default_atol.
have -> : sqrt (1 * 1) = 1%Re.
  by rewrite -[RHS]sqrt_1; congr sqrt; to_reals; ring.
by rewrite /Rmax; case: Rle_dec => _; to_reals; lra.
Qed.

(** X7.  When an iterate of [pcg] solves the system exactly while the
    test at the head of the loop, which looks at the residual of the
    iterate before, still fails and the cap has not been met, the next
    pass computes [eta = 0] and divides by it: the call leaves the reals
    (numpy goes on with [nan]). *)
Theorem pcg_exact_iterate_not_finite n (A : 'M[R]_n) (b : 'cV[R]_n)
    (maxiter : option Z) (rtol atol : R) (P : option (factor n))
    (k fuel : nat) (st : pcg_state n) :
  pcg_iter k A b (pcg_precond P) (pcg_init A b) = Return st ->
  A *m x st = b ->
  (forall j sj, (j <= k)%N ->
     pcg_iter j A b (pcg_precond P) (pcg_init A b) = Return sj ->
     (norm (r sj) > pcg_tol b rtol atol)%Re) ->
  ~ (1 <= pcg_maxiter n maxiter <= Z.of_nat k)%Z ->
  (k < fuel)%N ->
  pcg fuel A b maxiter rtol atol P = NotFinite.
Proof.
move=> Ek exact unconv nocap kfuel.
rewrite /pcg pcg_runE -(subnKC (ltnW kfuel)).
have nocap' : ~ (i (pcg_init A b) < pcg_maxiter n maxiter
                   <= i (pcg_init A b) + Z.of_nat k)%Z.
  by move: nocap; rewrite /=; lia.
have unconv' j sj : (j < k)%N ->
    pcg_iter j A b (pcg_precond P) (pcg_init A b) = Return sj ->
    (norm (r sj) > pcg_tol b rtol atol)%Re.
  by move=> /ltnW; exact: unconv.
rewrite (pcg_loop_skip _ Ek unconv' nocap').
have : (0 < fuel - k)%N by rewrite subn_gt0.
case: (fuel - k)%N => [|f] // _.
by rewrite pcg_loop_step ?pcg_body_exact //; exact: (unconv k).
Qed.

(** X7, witness: [A = [[1]]], [b = [1]] with every default.  The first
    pass gives [x = [1]]; the second divides by zero. *)
Lemma pcg_exact_iterate_not_finite_witness :
  pcg 2 (1%:M : 'M[R]_1) 1%:M None default_rtol default_atol None = NotFinite.
Proof.
have init1 : pcg_init (1%:M : 'M[R]_1) 1%:M = PcgState 0%:M 0%:M 1%:M 0.
  by rewrite /pcg_init mulmx0 subr0 zeromx_scalar.
have pass1 :
    pcg_body (1%:M : 'M[R]_1) 1%:M (pcg_precond None)
             (PcgState 0%:M 0%:M 1%:M 0)
    = Return (PcgState (1 / 1)%:M (1 / 1)%:M 1%:M 1).
  by rewrite pcg_precond_default pcg_body_scalar_first ?ridge1_neq0 ?oner_neq0.
apply: (@pcg_exact_iterate_not_finite 1 1%:M 1%:M None default_rtol
          default_atol None 1 2 (PcgState (1 / 1)%:M (1 / 1)%:M 1%:M 1)) => //.
- by rewrite /= init1 pass1.
- by rewrite /= mulmx_scalar divr1 mulr1.
- move=> [|[|j]] sj //= _; rewrite init1 ?pass1 => -[<-] /=.
    exact: unit_rhs_large.
  exact: unit_rhs_large.
- by rewrite /=; lia.
Defined.

(** X8.  With [maxiter >= 1] (given, or the default [10 n] for
    [n >= 1]) the loop of [pcg] makes at most [maxiter] passes: [maxiter]
    units of fuel are enough, and a returned state is the one after [k]
    passes for some [k <= maxiter], with counter [i = k]. *)
Theorem pcg_pass_bound n (A : 'M[R]_n) (b : 'cV[R]_n) (fuel : nat)
    (maxiter : option Z) (rtol atol : R) (P : option (factor n)) :
  (1 <= pcg_maxiter n maxiter)%Z ->
  (Z.to_nat (pcg_maxiter n maxiter) <= fuel)%N ->
  pcg fuel A b maxiter rtol atol P <> OutOfFuel /\
  forall st, pcg_run fuel A b maxiter rtol atol P = Return st ->
    exists k : nat,
      [/\ pcg_iter k A b (pcg_precond P) (pcg_init A b) = Return st,
          i st = Z.of_nat k
        & (Z.of_nat k <= pcg_maxiter n maxiter)%Z].
Proof.
move=> m1 mfuel; rewrite /pcg pcg_runE; split.
  case E: pcg_loop => [st|e||] //= _.
  by apply: pcg_loop_fuel E; rewrite /= ?Z.sub_0_r //; lia.
move=> st E; have [k [Ek _ _]] := pcg_loop_returns E.
have ik := pcg_iter_i Ek; rewrite /= in ik.
have := pcg_loop_bounded _ E; rewrite /= => /(_ ltac:(lia)) bound.
by exists k; split=> //; lia.
Qed.

(** X8, witness: [A = diag(1, 2)], [b = (1, 1)], [maxiter = 1], one
    unit of fuel. *)
Lemma pcg_pass_bound_witness :
  pcg 1 (diag2 1 2%Re) (vec2 1 1) (Some 1%Z) default_rtol default_atol None
    <> OutOfFuel /\
  forall st,
    pcg_run 1 (diag2 1 2%Re) (vec2 1 1) (Some 1%Z) default_rtol
            default_atol None = Return st ->
    exists k : nat,
      [/\ pcg_iter k (diag2 1 2%Re) (vec2 1 1) (pcg_precond None)
                   (pcg_init (diag2 1 2%Re) (vec2 1 1)) = Return st,
          i st = Z.of_nat k
        & (Z.of_nat k <= pcg_maxiter 2 (Some 1%Z))%Z].
Proof.
by apply: pcg_pass_bound.
Defined.

(** X9.  A [maxiter <= 0] never stops [pcg]: the test [i == maxiter]
    comes after the increment of [i].  Every such cap gives the same run,
    and when that run returns, the loop was left on the tolerance test. *)
Theorem pcg_nonpositive_cap n (A : 'M[R]_n) (b : 'cV[R]_n) (fuel : nat)
    (m m' : Z) (rtol atol : R) (P : option (factor n)) :
  (m <= 0)%Z -> (m' <= 0)%Z ->
  pcg_run fuel A b (Some m) rtol atol P
    = pcg_run fuel A b (Some m') rtol atol P /\
  forall st, pcg_run fuel A b (Some m) rtol atol P = Return st ->
    (norm (r st) <= pcg_tol b rtol atol)%Re.
Proof.
move=> m0 m0'; rewrite !pcg_runE; split; first exact: pcg_loop_nocap.
move=> st E; have [k [Ek _ kend]] := pcg_loop_returns E.
have ik := pcg_iter_i Ek; rewrite /= in ik.
apply: Rnot_gt_le; case: kend => // -[/ltP k0 imax].
by move: imax; rewrite /=; lia.
Qed.

(** X9, witness: the caps [0] and [-3] on [A = diag(1, 2)],
    [b = (1, 1)]. *)
Lemma pcg_nonpositive_cap_witness :
  pcg_run 5 (diag2 1 2%Re) (vec2 1 1) (Some 0%Z) default_rtol (1 / 2)%Re None
    = pcg_run 5 (diag2 1 2%Re) (vec2 1 1) (Some (- 3)%Z) default_rtol
              (1 / 2)%Re None /\
  forall st,
    pcg_run 5 (diag2 1 2%Re) (vec2 1 1) (Some 0%Z) default_rtol (1 / 2)%Re
            None = Return st ->
    (norm (r st) <= pcg_tol (vec2 1 1) default_rtol (1 / 2)%Re)%Re.
Proof.
by apply: pcg_nonpositive_cap.
Defined.

Section PcgEigen.

Variable n : nat.
Variables (A : 'M[R]_n) (b : 'cV[R]_n) (lam : R).
Hypothesis eigen : A *m b = lam *: b.
Hypothesis lam_neq0 : lam != 0.
Hypothesis b_neq0 : b != 0.

Lemma eigen_eta : lam * dot b b != 0.
Proof.
by rewrite mulf_neq0 //; apply: Rneq0; have := dot_gt0 b_neq0; to_reals; lra.
Qed.

(** The first pass with [invP = I] on an eigenvector [b] of [A]. *)
Lemma pcg_body_eigen :
  pcg_body A b 1%:M (pcg_init A b) =
  Return (PcgState (lam^-1 *: b) ((lam * dot b b)^-1 *: outer b b) b 1).
Proof.
rewrite /pcg_body; cbv zeta.
rewrite /= mulmx0 subr0 mul0mx subr0 !mul1mx eigen dotZr.
rewrite !fdiv_def ?eigen_eta //= !add0r div1r.
congr (Return (PcgState _ _ _ _)); congr (_ *: _).
have /Req0 l0 := lam_neq0.
have d0 : dot b b <> 0%Re by have := dot_gt0 b_neq0; to_reals; lra.
by to_reals; field.
Qed.

Lemma eigen_solution : A *m (lam^-1 *: b) = b.
Proof. by rewrite -scalemxAr eigen scalerA mulVf // scale1r. Qed.

End PcgEigen.

Lemma vec2_neq0 (u v : R) : v != 0 -> vec2 u v != 0.
Proof.
apply: contraNneq => e.
by have := congr1 (fun w : 'cV[R]_2 => w ord_max 0) e; rewrite !mxE /= => ->.
Qed.

(** X10.  [pcg] with the default [P] on a right-hand side [b] that is
    an eigenvector of [A] (every [b <> 0] when [A] is a multiple of the
    identity, or 1 x 1) and not below the tolerance: the first pass gives
    the exact solution [b / lambda] and [C = b b^T / (lambda b^T b)].
    With [maxiter = 1] this pair is returned; with any other [maxiter],
    the default included, the loop goes on, since its test sees the
    residual of [x = 0], and the second pass divides by zero. *)
Theorem pcg_eigenvector_rhs n (A : 'M[R]_n) (b : 'cV[R]_n) (lam : R)
    (maxiter : option Z) (rtol atol : R) (fuel : nat) :
  A *m b = lam *: b -> lam != 0 -> b != 0 ->
  (norm b > pcg_tol b rtol atol)%Re ->
  pcg fuel.+2 A b maxiter rtol atol None =
  if (pcg_maxiter n maxiter =? 1)%Z
  then Return (lam^-1 *: b, (lam * dot b b)^-1 *: outer b b)
  else NotFinite.
Proof.
move=> eigen l0 b0 gt.
rewrite /pcg pcg_runE pcg_precond_default -scalemx1.
rewrite pcg_loop_scale ?ridge1_neq0 //.
rewrite pcg_loop_step ?pcg_init_r // (pcg_body_eigen eigen) // bind_Return.
set st1 := PcgState _ _ _ _.
have -> : (i st1 =? pcg_maxiter n maxiter)%Z = (pcg_maxiter n maxiter =? 1)%Z.
  by rewrite Z.eqb_sym.
case: Z.eqb_spec => // _.
by rewrite pcg_loop_step // pcg_body_exact //; exact: eigen_solution.
Qed.

(** X10, witness: [A = diag(1, 2)], [b = (0, 1)], an eigenvector for
    [lambda = 2], with every default. *)
Lemma pcg_eigenvector_rhs_witness :
  pcg 2 (diag2 1 2%Re) (vec2 0 1) None default_rtol default_atol None
    = NotFinite.
Proof.
rewrite (@pcg_eigenvector_rhs 2 (diag2 1 2%Re) (vec2 0 1) 2%Re) //.
- by rewrite diag2_mul vec2Z; congr (vec2 _ _); to_reals; ring.
- by apply: Rneq0; lra.
- by apply: vec2_neq0; exact: oner_neq0.
- rewrite /pcg_tol norm_vec2 /default_rtol /default_atol.
  have -> : sqrt (0 * 0 + 1 * 1) = 1%Re.
    by rewrite -[RHS]sqrt_1; congr sqrt; to_reals; ring.
  by rewrite /Rmax; case: Rle_dec => _; to_reals; lra.
Defined.

(** ** Symmetric positive definite systems *)

Section PosDef.

Variable n : nat.
Variable T : 'M[R]_n.
Hypothesis T_pd : forall v : 'cV[R]_n, v != 0 -> (0 < dot v (T *m v))%Re.

Lemma pd_unit : T \in unitmx.
Proof.
apply: unitmx_colker => w Tw; apply/eqP/negPn/negP => /T_pd.
by rewrite Tw dot0r; exact: Rlt_irrefl.
Qed.

Lemma pd_inv (v : 'cV[R]_n) : v != 0 -> (0 < dot v (invmx T *m v))%Re.
Proof.
move=> v0; set w := invmx T *m v.
have -> : v = T *m w by rewrite mulKVmx // pd_unit.
rewrite dotC; apply: T_pd.
by apply: contraNneq v0 => e; rewrite -[v](mulKVmx pd_unit) -/w e mulmx0.
Qed.

Lemma pd_inv_ge0 (v : 'cV[R]_n) : (0 <= dot v (invmx T *m v))%Re.
Proof.
have [->|/pd_inv] := eqVneq v 0; first by rewrite dot0l; exact: Rle_refl.
exact: Rlt_le.
Qed.

End PosDef.

Lemma diag2_pd (v : 'cV[R]_2) :
  v != 0 -> (0 < dot v (diag2 1 2%Re *m v))%Re.
Proof.
rewrite [v]vec2_eta; move: (v 0 0) (v ord_max 0) => p q pq0.
rewrite diag2_mul dot_vec2.
have : ~ (p = 0%Re /\ q = 0%Re).
  case=> p0 q0; move/eqP: pq0; apply; rewrite p0 q0.
  by apply/colP => j; rewrite !mxE; case: ifP.
by to_reals; nra.
Qed.

Section Conjugate.

Variable n : nat.
Variables (A C : 'M[R]_n).
Hypothesis A_sym : A^T = A.
Hypothesis C_sym : C^T = C.
Hypothesis CAC : C *m A *m C = C.

(** What [(I - C A)] leaves of a vector is conjugate to the range of
    [C]. *)
Lemma conj_kill (w : 'cV[R]_n) : C *m (A *m ((1%:M - C *m A) *m w)) = 0.
Proof.
rewrite mulmxBl mul1mx !mulmxBr; apply/eqP; rewrite subr_eq0; apply/eqP.
by rewrite !mulmxA CAC.
Qed.

Lemma conj_left (e : 'cV[R]_n) :
  C *m (A *m e) = 0 -> e^T *m A *m C = 0.
Proof.
by move=> Ce; apply: trmx_inj; rewrite !trmx_mul trmxK A_sym C_sym trmx0.
Qed.

Lemma conj_split (e w : 'cV[R]_n) :
  C *m (A *m e) = 0 -> dot (e + C *m (A *m w)) (A *m e) = dot e (A *m e).
Proof.
move=> Ce; rewrite dotC dotDr [dot _ e]dotC [dot _ (C *m _)]dot_mulmx.
by rewrite C_sym Ce dot0l addr0.
Qed.

Lemma conj_eta (w : 'cV[R]_n) :
  let d := (1%:M - C *m A) *m w in dot d (A *m d) = dot w (A *m d).
Proof.
move=> d; rewrite -(@conj_split d w (conj_kill w)).
by congr (dot _ _); rewrite /d mulmxBl mul1mx -mulmxA subrK.
Qed.

End Conjugate.

Section PcgSpd.

Variable n : nat.
Variables (A : 'M[R]_n) (b : 'cV[R]_n) (invP : 'M[R]_n).
Hypothesis A_sym : A^T = A.
Implicit Types st : pcg_state n.

(** [C A C = C]: the directions collected in [C] are conjugate. *)
Lemma pcg_body_CAC st st' :
  (C st)^T = C st -> C st *m A *m C st = C st ->
  pcg_body A b invP st = Return st' -> C st' *m A *m C st' = C st'.
Proof.
move=> Csym CAC /pcg_bodyP [eta0 _ -> _ _]; move: eta0.
move: (invP *m _) => w.
have := conj_eta Csym CAC w; have := conj_kill CAC w.
move: ((1%:M - _) *m w) => d /= CAd dAd; rewrite -dAd => eta0.
have dAC := conj_left A_sym Csym CAd.
have h1 : C st *m A *m outer d d = 0.
  by rewrite /outer mulmxA -(mulmxA _ A d) CAd mul0mx.
have h2 : outer d d *m A *m C st = 0.
  by rewrite /outer -!mulmxA (mulmxA d^T) dAC mulmx0.
have h3 : outer d d *m A *m outer d d = dot d (A *m d) *: outer d d.
  rewrite /outer -!mulmxA (mulmxA A) (mulmxA d^T).
  have -> : d^T *m (A *m d) = (dot d (A *m d))%:M by rewrite [LHS]mx11_scalar.
  by rewrite mul_scalar_mx -scalemxAr.
rewrite !mulmxDl !mulmxDr -!scalemxAl -!scalemxAr -?scalemxAl.
rewrite CAC h1 h2 h3 !scaler0 !addr0 add0r !scalerA.
by rewrite -mulrA !mul1r mulVf // mulr1.
Qed.

Lemma pcg_iter_CAC k st st' :
  (C st)^T = C st -> C st *m A *m C st = C st ->
  pcg_iter k A b invP st = Return st' -> C st' *m A *m C st' = C st'.
Proof.
move=> Csym CAC; elim: k st' => [|k IHk] st' /=; first by case=> <-.
case E: pcg_iter => [st1|||] //=; apply: pcg_body_CAC (IHk _ E).
exact: pcg_iter_sym E Csym.
Qed.

Hypothesis A_pd : forall v : 'cV[R]_n, v != 0 -> (0 < dot v (A *m v))%Re.
Hypothesis invP_pd :
  forall v : 'cV[R]_n, v != 0 -> (0 < dot (invP *m v) v)%Re.

(** On a positive definite system a pass divides by zero only at an
    exact iterate. *)
Lemma pcg_body_spd st :
  (C st)^T = C st -> C st *m A *m C st = C st -> x st = C st *m b ->
  A *m x st <> b -> exists st', pcg_body A b invP st = Return st'.
Proof.
move=> Csym CAC xCb inexact; rewrite /pcg_body; cbv zeta.
have rr0 : b - A *m x st != 0.
  by rewrite subr_eq0; apply/eqP => e; apply: inexact.
have Crr : C st *m (b - A *m x st) = 0.
  by rewrite mulmxBr xCb !mulmxA CAC subrr.
have := invP_pd rr0; move: Crr {rr0}; move: (b - _) => rr Crr.
move: (invP *m rr) => w alpha_gt0.
have := conj_eta Csym CAC w => /= <-.
have d0 : (1%:M - C st *m A) *m w != 0.
  apply/eqP => /eqP; rewrite mulmxBl mul1mx subr_eq0 => /eqP e.
  move: alpha_gt0; rewrite e dotC -mulmxA dot_mulmx Csym Crr dot0l.
  exact: Rlt_irrefl.
have eta0 : dot ((1%:M - C st *m A) *m w) (A *m ((1%:M - C st *m A) *m w)) != 0.
  by apply: Rneq0; have := A_pd d0; to_reals; lra.
by rewrite !fdiv_def //=; eexists.
Qed.

End PcgSpd.

Lemma pcg_loop_not_finite n (A : 'M[R]_n) (b : 'cV[R]_n) (invP : 'M[R]_n)
    fuel maxiter tol (st : pcg_state n) :
  pcg_loop fuel A b invP maxiter tol st = NotFinite ->
  exists (k : nat) (sk : pcg_state n),
    pcg_iter k A b invP st = Return sk /\ pcg_body A b invP sk = NotFinite.
Proof.
elim: fuel st => [|fuel IHf] st /=; case: Rgt_dec => //= _.
case E: pcg_body => [st1|||] //=; last by exists 0%N, st.
case: Z.eqb_spec => // _ /IHf [k [sk [Ek Eb]]].
by exists k.+1, sk; rewrite pcg_iterS E.
Qed.

(** X11.  [pcg] on a symmetric positive definite [A].  The inverse
    estimate satisfies [C A C = C] at every iterate; a pass from an
    iterate divides by zero exactly when that iterate already solves the
    system; so when a call leaves the reals, it had reached the exact
    solution. *)
Theorem pcg_spd_breakdown n (A : 'M[R]_n) (b : 'cV[R]_n)
    (P : option (factor n)) :
  A^T = A -> (forall v : 'cV[R]_n, v != 0 -> (0 < dot v (A *m v))%Re) ->
  (forall (k : nat) (st : pcg_state n),
     pcg_iter k A b (pcg_precond P) (pcg_init A b) = Return st ->
     [/\ C st *m A *m C st = C st,
         A *m x st = b -> pcg_body A b (pcg_precond P) st = NotFinite
       & A *m x st <> b ->
         exists st', pcg_body A b (pcg_precond P) st = Return st']) /\
  (forall (fuel : nat) (maxiter : option Z) (rtol atol : R),
     pcg fuel A b maxiter rtol atol P = NotFinite ->
     exists (k : nat) (st : pcg_state n),
       pcg_iter k A b (pcg_precond P) (pcg_init A b) = Return st /\
       A *m x st = b).
Proof.
move=> A_sym A_pd.
have sym0 : (C (pcg_init A b))^T = C (pcg_init A b) by rewrite /= trmx0.
have CAC0 : C (pcg_init A b) *m A *m C (pcg_init A b) = C (pcg_init A b).
  by rewrite /= mulmx0.
have xCb0 : x (pcg_init A b) = C (pcg_init A b) *m b by rewrite /= mul0mx.
have iterP k st : pcg_iter k A b (pcg_precond P) (pcg_init A b) = Return st ->
    [/\ C st *m A *m C st = C st,
        A *m x st = b -> pcg_body A b (pcg_precond P) st = NotFinite
      & A *m x st <> b ->
        exists st', pcg_body A b (pcg_precond P) st = Return st'].
  move=> Ek; have CAC := pcg_iter_CAC A_sym sym0 CAC0 Ek.
  split=> //; first exact: pcg_body_exact.
  apply: pcg_body_spd => //.
  - exact: pcg_precond_pd.
  - exact: pcg_iter_sym Ek sym0.
  - exact: pcg_iter_xCb Ek.
split=> // fuel maxiter rtol atol; rewrite /pcg pcg_runE.
case E: pcg_loop => [st|||] //= _.
have [k [sk [Ek Eb]]] := pcg_loop_not_finite E.
exists k, sk; split=> //; have [_ _ inexact] := iterP _ _ Ek.
have [//|/eqP ne] := eqVneq (A *m x sk) b.
by have [st' ] := inexact ne; rewrite Eb.
Qed.

(** X11, witness: [A = diag(1, 2)], [b = (1, 1)] and the default
    [P]. *)
Lemma pcg_spd_breakdown_witness :
  let A : 'M[R]_2 := diag2 1 2%Re in
  let b : 'cV[R]_2 := vec2 1 1 in
  (forall (k : nat) (st : pcg_state 2),
     pcg_iter k A b (pcg_precond None) (pcg_init A b) = Return st ->
     [/\ C st *m A *m C st = C st,
         A *m x st = b -> pcg_body A b (pcg_precond None) st = NotFinite
       & A *m x st <> b ->
         exists st', pcg_body A b (pcg_precond None) st = Return st']) /\
  (forall (fuel : nat) (maxiter : option Z) (rtol atol : R),
     pcg fuel A b maxiter rtol atol None = NotFinite ->
     exists (k : nat) (st : pcg_state 2),
       pcg_iter k A b (pcg_precond None) (pcg_init A b) = Return st /\
       A *m x st = b).
Proof.
exact: (pcg_spd_breakdown (vec2 1 1) None (diag2_sym 1 2%Re) diag2_pd).
Defined.

(** ** The energy of the error *)

Lemma dotBr n (u v w : 'cV[R]_n) : dot u (v - w) = dot u v - dot u w.
Proof. by rewrite /dot mulmxBr !mxE. Qed.

Lemma dotBl n (u v w : 'cV[R]_n) : dot (u - v) w = dot u w - dot v w.
Proof. by rewrite dotC dotBr ![dot w _]dotC. Qed.


(** For a symmetric [A] with [lam v^T v <= v^T A v <= Lam v^T v]: the
    residual [A e] of an error [e] and its energy [e^T A e] bound each
    other. *)
Section Rayleigh.

Variable n : nat.
Variable A : 'M[R]_n.
Variables lam Lam : R.
Hypothesis A_sym : A^T = A.
Hypothesis lam_gt0 : (0 < lam <= Lam)%Re.
Hypothesis A_bounds :
  forall v : 'cV[R]_n,
    (lam * dot v v <= dot v (A *m v) <= Lam * dot v v)%Re.

Lemma rayleigh_pd (v : 'cV[R]_n) : v != 0 -> (0 < dot v (A *m v))%Re.
Proof.
move=> /dot_gt0 v0; have [lo _] := A_bounds v.
by move: lam_gt0 v0 lo; to_reals; nra.
Qed.

Lemma energy_le_residual (e : 'cV[R]_n) :
  (lam * dot e (A *m e) <= dot (A *m e) (A *m e))%Re.
Proof.
have [lo _] := A_bounds e.
have := dot_ge0 (A *m e - lam *: e).
rewrite -scaleNr dotDr dotZr ![dot (_ + _) _]dotC !dotDr !dotZr.
move: lo; rewrite [dot e (A *m e)]dotC.
move: (dot e e) (dot (A *m e) e) (dot (A *m e) (A *m e)) => p q s.
by move: lam_gt0; to_reals; nra.
Qed.

Lemma residual_le_energy (e : 'cV[R]_n) :
  (dot (A *m e) (A *m e) <= Lam * dot e (A *m e))%Re.
Proof.
have [_ up] := A_bounds (A *m e).
have [lo _] := A_bounds (Lam *: e - A *m e).
have ge0 := dot_ge0 (Lam *: e - A *m e).
have sym : dot e (A *m (A *m e)) = dot (A *m e) (A *m e).
  by rewrite dot_mulmx A_sym.
move: lo up ge0; rewrite mulmxBr -scalemxAr.
rewrite !(dotBr, dotBl, dotZr, dotZl) sym [dot (A *m e) e]dotC.
move: (dot e (A *m e)) (dot (A *m e) (A *m e))
      (dot (A *m e) (A *m (A *m e))) (dot e e) => p q s t.
move: lam_gt0; to_reals => -[l0 lL] lo up ge0.
have X : (0 <= Lam * (Lam * p - q))%Re by nra.
by nra.
Qed.

End Rayleigh.

Section PcgEnergy.

Variable n : nat.
Variables (A : 'M[R]_n) (b : 'cV[R]_n) (invP : 'M[R]_n).
Hypothesis A_sym : A^T = A.
Hypothesis A_psd : forall v : 'cV[R]_n, (0 <= dot v (A *m v))%Re.
Implicit Types st : pcg_state n.

(** A pass does not increase the energy [e^T A e] of the error [e],
    where [A e] is the residual: it takes [alpha^2 / eta] off. *)
Lemma pcg_body_energy st st' (e : 'cV[R]_n) :
  (C st)^T = C st -> C st *m A *m C st = C st -> x st = C st *m b ->
  pcg_body A b invP st = Return st' -> A *m e = b - A *m x st ->
  exists e' : 'cV[R]_n,
    A *m e' = b - A *m x st' /\ (dot e' (A *m e') <= dot e (A *m e))%Re.
Proof.
move=> Csym CAC xCb /pcg_bodyP [eta0 -> _ _ _] Ae; move: eta0.
have Crr : C st *m (b - A *m x st) = 0.
  by rewrite mulmxBr xCb !mulmxA CAC subrr.
move: Crr Ae; move rrE: (b - A *m x st) => rr Crr Ae.
move: (invP *m rr) => w.
have := conj_eta Csym CAC w => /= <-.
have dr : dot ((1%:M - C st *m A) *m w) rr = dot w rr.
  rewrite mulmxBl mul1mx dotBl -mulmxA [dot (C st *m _) _]dotC dot_mulmx.
  by rewrite Csym Crr dot0l subr0.
move: dr (A_psd ((1%:M - C st *m A) *m w)).
move: ((1%:M - C st *m A) *m w) => d dr eta_ge0 eta0.
set t := dot w rr / dot d (A *m d).
have Ae' : A *m (e - t *: d) = rr - t *: (A *m d).
  by rewrite mulmxBr -scalemxAr Ae.
exists (e - t *: d); split.
  by rewrite Ae' mulmxDr -scalemxAr opprD addrA rrE.
have ed : dot e (A *m d) = dot w rr by rewrite dot_mulmx A_sym Ae dotC.
rewrite Ae' Ae !(dotBr, dotBl, dotZr, dotZl) ed dr /t.
move/Req0: eta0 => eta0.
move: (dot e rr) (dot w rr) (dot d (A *m d)) eta_ge0 eta0 => E al eta ge0 ne0.
have gt0 : (0 < eta)%Re by lra.
have -> : (E - al / eta * al - (al / eta * al - al / eta * (al / eta * eta)))
          = (E - al * al / eta)%Re :> R by to_reals; field.
have : (0 <= al * al / eta)%Re.
  by apply: Rmult_le_pos; [exact: Rle_0_sqr | apply/Rlt_le/Rinv_0_lt_compat].
by to_reals; lra.
Qed.

End PcgEnergy.

(** For [lam I <= A <= Lam I], symmetric: the residual of the iterate
    after a pass is at most [sqrt(Lam / lam)] times the residual of the
    iterate before it. *)
Lemma pcg_body_residual_bound n (A : 'M[R]_n) (b : 'cV[R]_n)
    (invP : 'M[R]_n) (lam Lam : R) (st st' : pcg_state n) :
  A^T = A -> (0 < lam <= Lam)%Re ->
  (forall v : 'cV[R]_n,
     (lam * dot v v <= dot v (A *m v) <= Lam * dot v v)%Re) ->
  (C st)^T = C st -> C st *m A *m C st = C st -> x st = C st *m b ->
  pcg_body A b invP st = Return st' ->
  (norm (b - A *m x st') <= sqrt (Lam / lam) * norm (b - A *m x st))%Re.
Proof.
move=> A_sym lam0 A_bounds Csym CAC xCb E.
have A_pd := rayleigh_pd lam0 A_bounds.
have A_psd (v : 'cV[R]_n) : (0 <= dot v (A *m v))%Re.
  have [->|/A_pd] := eqVneq v 0; last exact: Rlt_le.
  by rewrite dot0l; exact: Rle_refl.
have Au := pd_unit A_pd.
have Ae : A *m (invmx A *m (b - A *m x st)) = b - A *m x st.
  by rewrite mulKVmx.
have [e' [Ae' le]] := pcg_body_energy A_sym A_psd Csym CAC xCb E Ae.
have up := residual_le_energy A_sym lam0 A_bounds e'.
have lo := energy_le_residual lam0 A_bounds (invmx A *m (b - A *m x st)).
move: le lo up; rewrite Ae Ae'.
rewrite /norm; move: (dot e' _) (dot (invmx A *m _) _) => p' p.
have := dot_ge0 (b - A *m x st); have := dot_ge0 (b - A *m x st').
move: (dot (b - _) _) (dot (b - _) _) => q q' q'0 q0 le lo up.
have [l0 lL] := lam0.
have k0 : (0 <= Lam / lam)%Re.
  by apply: Rmult_le_pos; [lra | apply/Rlt_le/Rinv_0_lt_compat].
rewrite -sqrt_mult //; apply: sqrt_le_1_alt.
have -> : (Lam / lam * q = Lam * (q / lam))%Re by field; lra.
have pq : (p <= q / lam)%Re.
  apply: (Rmult_le_reg_l lam) => //.
  by have -> : (lam * (q / lam) = q)%Re by field; lra.
have h1 : (0 <= Lam * (p - p'))%Re by apply: Rmult_le_pos; lra.
have h2 : (0 <= Lam * (q / lam - p))%Re by apply: Rmult_le_pos; lra.
by lra.
Qed.

(** ** A 3 x 3 system *)

Section ThreeByThree.

Lemma vec3D u v w p q s :
  vec3 u v w + vec3 p q s = vec3 (u + p) (v + q) (w + s).
Proof. by apply/colP => j; rewrite !mxE; do 2?case: ifP => // _. Qed.

Lemma vec3N u v w : - vec3 u v w = vec3 (- u) (- v) (- w).
Proof. by apply/colP => j; rewrite !mxE; do 2?case: ifP => // _. Qed.

Lemma vec3Z c u v w : c *: vec3 u v w = vec3 (c * u) (c * v) (c * w).
Proof. by apply/colP => j; rewrite !mxE; do 2?case: ifP => // _. Qed.

Lemma dot_vec3 u v w p q s :
  dot (vec3 u v w) (vec3 p q s) = u * p + v * q + w * s.
Proof. by rewrite dotE !big_ord_recl big_ord0 !mxE /= addr0 addrA. Qed.

Lemma norm_vec3 u v w : norm (vec3 u v w) = sqrt (u * u + v * v + w * w).
Proof. by rewrite /norm dot_vec3. Qed.

Lemma diag3_mul u v w p q s :
  diag3 u v w *m vec3 p q s = vec3 (u * p) (v * q) (w * s).
Proof.
apply/colP => j; rewrite !mxE !big_ord_recl big_ord0 !mxE /= addr0.
by case: j => [[|[|[|j]]]] //= lt; rewrite ?mul0r ?add0r ?addr0.
Qed.

Lemma diag3_sym u v w : (diag3 u v w)^T = diag3 u v w.
Proof.
apply/matrixP => j k; rewrite !mxE eq_sym.
by case: eqP => // ->.
Qed.

End ThreeByThree.

(** The first pass of [pcg] with [invP = I]. *)
Lemma pcg_body_first n (A : 'M[R]_n) (b : 'cV[R]_n) :
  pcg_body A b 1%:M (pcg_init A b) =
  (w <- fdiv 1 (dot b (A *m b)) ;;
   w' <- fdiv (dot b b) (dot b (A *m b)) ;;
   Return (PcgState (w' *: b) (w *: outer b b) b 1)).
Proof.
rewrite /pcg_body; cbv zeta.
rewrite /= mulmx0 subr0 mul0mx subr0 !mul1mx.
by rewrite /fdiv; case: ifP => //= _; rewrite !add0r.
Qed.

(** A pass of [pcg] with [invP = I] from an inverse estimate of rank
    one. *)
Lemma pcg_body_rank1 n (A : 'M[R]_n) (b e xx rho : 'cV[R]_n) (w : R)
    (k : Z) :
  pcg_body A b 1%:M (PcgState xx (w *: outer e e) rho k) =
  (let r := b - A *m xx in
   let d := r - (w * dot e (A *m r)) *: e in
   let eta := dot r (A *m d) in
   w1 <- fdiv 1 eta ;;
   w2 <- fdiv (dot r r) eta ;;
   Return (PcgState (xx + w2 *: d) (w *: outer e e + w1 *: outer d d) r
                    (k + 1))).
Proof.
rewrite /pcg_body; cbv zeta; rewrite /= !mul1mx.
by rewrite mulmxBl mul1mx -mulmxA -scalemxAl outer_mul scalerA.
Qed.

Section StaleExit.

Let A3 : 'M[R]_3 := diag3 1 7%Re 10%Re.
Let b3 : 'cV[R]_3 := vec3 1 3%Re 1.

Lemma rhs3_norm : norm b3 = sqrt 11.
Proof. by rewrite /b3 norm_vec3; congr sqrt; to_reals; ring. Qed.

Lemma sqrt11_bounds : (1 < sqrt 11 <= 4)%Re.
Proof.
split; first by rewrite -[X in (X < _)%Re]sqrt_1; apply: sqrt_lt_1_alt; lra.
have -> : 4%Re = sqrt 16 by symmetry; apply: sqrt_lem_1; lra.
by apply: sqrt_le_1_alt; lra.
Qed.

Lemma tol3 : pcg_tol b3 default_rtol 1 = 1.
Proof.
rewrite /pcg_tol rhs3_norm /default_rtol; have [_ le4] := sqrt11_bounds.
by rewrite /Rmax; case: Rle_dec => //; move: (sqrt _) le4 => s; to_reals; lra.
Qed.

Lemma rhs3_large : (norm b3 > pcg_tol b3 default_rtol 1)%Re.
Proof. by rewrite tol3 rhs3_norm; have [] := sqrt11_bounds. Qed.

(** The residual of the first iterate is within the tolerance. *)
Lemma residual3_small :
  ~ (norm (vec3 (63%Re / 74%Re) (- (9%Re / 74%Re)) (- (18%Re / 37%Re)))
       > pcg_tol b3 default_rtol 1)%Re.
Proof.
rewrite tol3 norm_vec3; apply: Rle_not_gt.
by rewrite -[X in (_ <= X)%Re]sqrt_1; apply: sqrt_le_1_alt; to_reals; lra.
Qed.

(** [pcg] on [A = diag(1, 7, 10)], [b = (1, 3, 1)], [atol = 1] and the
    defaults: the first pass leaves the residual
    [(63/74, -9/74, -18/37)], of norm below 1; the second pass leads to
    [x = (1/2, 1/2, 0)]; the test at the head of the third pass sees the
    residual of the first iterate and ends the loop. *)
Lemma pcg_stale_exit (fuel : nat) :
  exists C2 : 'M[R]_3,
    pcg_run fuel.+2 A3 b3 None default_rtol 1 None =
    Return (PcgState (vec3 (1 / 2%Re) (1 / 2%Re) 0) C2
                     (vec3 (63%Re / 74%Re) (- (9%Re / 74%Re))
                           (- (18%Re / 37%Re))) 2).
Proof.
rewrite pcg_runE pcg_precond_default -scalemx1 pcg_loop_scale ?ridge1_neq0 //.
have gt0 : (norm (r (pcg_init A3 b3)) > pcg_tol b3 default_rtol 1)%Re.
  by rewrite pcg_init_r; exact: rhs3_large.
rewrite (pcg_loop_step _ _ _ _ _ gt0) pcg_body_first.
have E74 : dot b3 (A3 *m b3) = 74%Re.
  by rewrite /A3 /b3 diag3_mul dot_vec3; to_reals; ring.
have n74 : (74%Re : R) != 0 by apply: Rneq0; lra.
rewrite !(fdiv_eq _ n74 E74) !bind_Return.
set st1 := PcgState _ _ _ 1.
have -> : (i st1 =? pcg_maxiter 3 None)%Z = false by [].
have gt1 : (norm (r st1) > pcg_tol b3 default_rtol 1)%Re by exact: rhs3_large.
rewrite (pcg_loop_step _ _ _ _ _ gt1) /st1 pcg_body_rank1; cbv zeta.
have Ex1 : dot b3 b3 / 74%Re *: b3 = vec3 (11%Re / 74%Re) (33%Re / 74%Re) (11%Re / 74%Re).
  by rewrite /b3 dot_vec3 vec3Z; congr (vec3 _ _ _); to_reals; field.
have Er1 : b3 - A3 *m (dot b3 b3 / 74%Re *: b3)
           = vec3 (63%Re / 74%Re) (- (9%Re / 74%Re)) (- (18%Re / 37%Re)).
  rewrite Ex1 /A3 /b3 diag3_mul vec3N vec3D.
  by congr (vec3 _ _ _); to_reals; field.
rewrite Er1 Ex1.
have Ed : vec3 (63%Re / 74%Re) (- (9%Re / 74%Re)) (- (18%Re / 37%Re))
            - (1 / 74%Re
               * dot b3 (A3 *m vec3 (63%Re / 74%Re) (- (9%Re / 74%Re))
                                     (- (18%Re / 37%Re)))) *: b3
          = vec3 (1287%Re / 1369%Re) (198%Re / 1369%Re)
                 (- (1089%Re / 2738%Re)).
  rewrite /A3 /b3 diag3_mul dot_vec3 vec3Z vec3N vec3D.
  by congr (vec3 _ _ _); to_reals; field.
rewrite Ed.
have Eeta : dot (vec3 (63%Re / 74%Re) (- (9%Re / 74%Re)) (- (18%Re / 37%Re)))
              (A3 *m vec3 (1287%Re / 1369%Re) (198%Re / 1369%Re)
                          (- (1089%Re / 2738%Re)))
            = 264627%Re / 101306%Re.
  by rewrite /A3 diag3_mul dot_vec3; to_reals; field.
have neta : (264627%Re / 101306%Re : R) != 0 by apply: Rneq0; lra.
rewrite !(fdiv_eq _ neta Eeta) !bind_Return.
set st2 := PcgState _ _ _ _.
have -> : (i st2 =? pcg_maxiter 3 None)%Z = false by [].
rewrite (@pcg_loop_exit0 3 A3 b3 1%:M fuel _ _ st2 residual3_small).
eexists; congr (Return (PcgState _ _ _ _)).
rewrite dot_vec3 vec3Z vec3D.
by congr (vec3 _ _ _); to_reals; field.
Qed.

(** The residual of the returned [x = (1/2, 1/2, 0)] is
    [(1/2, -1/2, 1)], of norm [sqrt(3/2)], above the tolerance 1. *)
Lemma residual3_returned :
  (norm (A3 *m vec3 (1 / 2%Re) (1 / 2%Re) 0 - b3)
     > pcg_tol b3 default_rtol 1)%Re.
Proof.
rewrite tol3 /A3 /b3 diag3_mul vec3N vec3D norm_vec3.
by rewrite -[X in (_ > X)%Re]sqrt_1; apply: sqrt_lt_1_alt; to_reals; lra.
Qed.

End StaleExit.

Lemma vec3_eta (w : 'cV[R]_3) :
  w = vec3 (w ord0 0) (w (lift ord0 ord0) 0) (w ord_max 0).
Proof.
apply/colP => j; rewrite !mxE.
by case: j => [[|[|[|j]]]] //= lt; congr (w _ _); apply: val_inj.
Qed.

(** [diag(1, 7, 10)] lies between the identity and ten times the
    identity. *)
Lemma diag3_bounds (v : 'cV[R]_3) :
  (1 * dot v v <= dot v (diag3 1 7%Re 10%Re *m v) <= 10 * dot v v)%Re.
Proof.
rewrite [v]vec3_eta; move: (v _ _) (v _ _) (v _ _) => p q s.
rewrite diag3_mul !dot_vec3.
have := Rle_0_sqr p; have := Rle_0_sqr q; have := Rle_0_sqr s.
by rewrite /Rsqr; to_reals; lra.
Qed.

(** ** The loop of [PCG.solve] *)

Import Classic.

Section CgLoop.

Variable n : nat.
Variables (A0 M0 : 'M[R]_n) (b0 : 'cV[R]_n).
Implicit Types st : cg_state n.

Lemma cg_initP st :
  cg_init A0 M0 b0 = Return st ->
  [/\ M0 \in unitmx, self_x st = 0, r st = b0,
      delta_new st = dot b0 (invmx M0 *m b0) & i st = 0%Z].
Proof.
rewrite /cg_init mulmx0 subr0 /np_solve; case: ifP => //= Mu [<-] /=.
by split.
Qed.

Lemma cg_bodyP st st' :
  cg_body A0 M0 st = Return st' ->
  let q := A0 *m d st in
  let alpha := delta_new st / dot (d st) q in
  [/\ dot (d st) q != 0 /\ delta_new st != 0,
      self_x st' = self_x st + alpha *: d st,
      r st' = r st - alpha *: q,
      delta_new st' = dot (r st') (invmx M0 *m r st')
    & i st' = (i st + 1)%Z].
Proof.
rewrite /cg_body /fdiv /np_solve; case: ifP => //= /negbT dq0.
case: ifP => //= Mu; case: ifP => //= /negbT do0 [<-] /=.
by split.
Qed.

Lemma cg_body_cases st :
  [\/ cg_body A0 M0 st = NotFinite, cg_body A0 M0 st = Raise LinAlgError
    | exists st', cg_body A0 M0 st = Return st'].
Proof.
rewrite /cg_body /fdiv /np_solve; case: ifP => _ /=; first by constructor 1.
case: ifP => _ /=; last by constructor 2.
by case: ifP => _ /=; [constructor 1 | constructor 3; eexists].
Qed.

Lemma cg_init_raises e : cg_init A0 M0 b0 = Raise e -> e = LinAlgError.
Proof. by rewrite /cg_init /np_solve; case: ifP => //= _ [<-]. Qed.

(** The recurrence [r -= alpha * q] keeps [r] equal to the residual of
    [self.x], for every preconditioner. *)
Lemma cg_body_residual st st' :
  cg_body A0 M0 st = Return st' ->
  r st = b0 - A0 *m self_x st -> r st' = b0 - A0 *m self_x st'.
Proof.
move=> /cg_bodyP [_ -> -> _ _] ->.
by rewrite mulmxDr -scalemxAr opprD addrA.
Qed.

Lemma cg_iterS k st :
  cg_iter k.+1 A0 M0 st = (st' <- cg_body A0 M0 st ;; cg_iter k A0 M0 st').
Proof.
elim: k => [|k IHk] /=; first by case: cg_body.
by move: IHk => /= ->; case: cg_body.
Qed.

Lemma cg_iter_i k st st' :
  cg_iter k A0 M0 st = Return st' -> i st' = (i st + Z.of_nat k)%Z.
Proof.
elim: k st' => [|k IHk] st' /=; first by case=> <-; lia.
case E: cg_iter => [st1|||] //= /cg_bodyP [_ _ _ _ ->].
by rewrite (IHk _ E); lia.
Qed.

Lemma cg_iter_residual k st st' :
  cg_iter k A0 M0 st = Return st' ->
  r st = b0 - A0 *m self_x st -> r st' = b0 - A0 *m self_x st'.
Proof.
elim: k st' => [|k IHk] st' /=; first by case=> <-.
case E: cg_iter => [st1|||] //= /cg_body_residual H /(IHk _ E); exact: H.
Qed.

Lemma cg_loop_head fuel tol0 maxiter0 st :
  cg_continue tol0 maxiter0 st ->
  cg_loop fuel.+1 A0 M0 tol0 maxiter0 st =
  (st' <- cg_body A0 M0 st ;;
   if (i st' =? maxiter0)%Z then Return (st', true)
   else cg_loop fuel A0 M0 tol0 maxiter0 st').
Proof.
case=> d0 gt lt /=; rewrite /np_sqrt; case: Rlt_dec => [|_] /=; first by lra.
by case: Rgt_dec => //= _; case: Z.ltb_spec => //; lia.
Qed.

Lemma cg_loop_stop fuel tol0 maxiter0 st :
  (0 <= delta_new st)%Re ->
  ~ ((sqrt (delta_new st) > tol0)%Re /\ (i st < maxiter0)%Z) ->
  cg_loop fuel A0 M0 tol0 maxiter0 st = Return (st, false).
Proof.
move=> d0 stop; have E : Rgt_dec (sqrt (delta_new st)) tol0 && (i st <? maxiter0)%Z = false.
  apply/negP => /andP[]; case: Rgt_dec => //= gt _; case: Z.ltb_spec => // lt _.
  by apply: stop.
by case: fuel => [|fuel] /=; rewrite /np_sqrt; (case: Rlt_dec => [|_] /=; first by lra); rewrite E.
Qed.

Lemma cg_loop_exits fuel tol0 maxiter0 st fin :
  cg_loop fuel A0 M0 tol0 maxiter0 st = Return fin ->
  cg_continue tol0 maxiter0 st \/
  [/\ fin = (st, false), (0 <= delta_new st)%Re
    & ~ ((sqrt (delta_new st) > tol0)%Re /\ (i st < maxiter0)%Z)].
Proof.
have [neg|pos] := Rlt_dec (delta_new st) 0.
  by case: fuel => [|fuel] /=; rewrite /np_sqrt; case: Rlt_dec.
have d0 : (0 <= delta_new st)%Re by lra.
have [gt|ngt] := Rgt_dec (sqrt (delta_new st)) tol0; last first.
  have stop : ~ ((sqrt (delta_new st) > tol0)%Re /\ (i st < maxiter0)%Z) by case.
  by rewrite (cg_loop_stop _ d0 stop) => -[<-]; right; split.
have [lt|ge] := Z_lt_dec (i st) maxiter0; first by left; split.
have stop : ~ ((sqrt (delta_new st) > tol0)%Re /\ (i st < maxiter0)%Z) by case.
by rewrite (cg_loop_stop _ d0 stop) => -[<-]; right; split.
Qed.

(** What a returning loop has done. *)
Lemma cg_loop_returns fuel tol0 maxiter0 st st' raised :
  cg_loop fuel A0 M0 tol0 maxiter0 st = Return (st', raised) ->
  exists k : nat,
    [/\ cg_iter k A0 M0 st = Return st',
        forall j sj, (j < k)%N -> cg_iter j A0 M0 st = Return sj ->
          cg_continue tol0 maxiter0 sj
      & if raised then (0 < k)%N /\ i st' = maxiter0
        else (0 <= delta_new st')%Re /\
             ~ ((sqrt (delta_new st') > tol0)%Re /\ (i st' < maxiter0)%Z)].
Proof.
elim: fuel st => [|fuel IHf] st E.
  case: (cg_loop_exits E) => [c|[[-> ->] d0 stop]]; last by exists 0%N; split.
  by move: E; case: c => d0 gt lt /=; rewrite /np_sqrt; case: Rlt_dec => [|_] /=; [lra|];
     case: Rgt_dec => //= _; case: Z.ltb_spec => //; lia.
case: (cg_loop_exits E) => [c|[[-> ->] d0 stop]]; last by exists 0%N; split.
move: E; rewrite cg_loop_head //; case E1: cg_body => [st1|||] //=.
case: Z.eqb_spec => [imax [<- <-]|_ /IHf].
  exists 1%N; split; [by rewrite /= E1 | | by []].
  by move=> [|j] sj; [move=> _ [<-] | rewrite ltnS ltn0].
case=> k [kst' kc kend]; exists k.+1; split.
- by rewrite cg_iterS E1.
- case=> [|j] sj; first by move=> _ [<-].
  by rewrite cg_iterS E1 /= ltnS; exact: kc.
- by case: raised kend {IHf} => // -[].
Qed.

Lemma cg_loop_raises fuel tol0 maxiter0 st e :
  cg_loop fuel A0 M0 tol0 maxiter0 st = Raise e -> e = LinAlgError.
Proof.
elim: fuel st => [|fuel IHf] st /=;
  rewrite /np_sqrt; case: Rlt_dec => //= _; case: andP => //= _.
case: (cg_body_cases st) => [->|->|[st1 ->]] //=; first by case.
by case: Z.eqb_spec => // _; exact: IHf.
Qed.

(** [maxiter - i] units of fuel are enough, whatever the input. *)
Lemma cg_loop_fuel fuel tol0 maxiter0 st :
  (Z.to_nat (maxiter0 - i st) <= fuel)%N ->
  cg_loop fuel A0 M0 tol0 maxiter0 st <> OutOfFuel.
Proof.
elim: fuel st => [|fuel IHf] st /leP fuel_ok /=; rewrite /np_sqrt;
  case: Rlt_dec => //= _; case: Rgt_dec => //= _; case: Z.ltb_spec => //= lt.
  by lia.
case: (cg_body_cases st) => [->|->|[st1 E]] //; rewrite E /=.
have [_ _ _ _ i1] := cg_bodyP E.
by case: Z.eqb_spec => // ne; apply: IHf; apply/leP; lia.
Qed.

(** The run when the loop test holds before each of the first [m]
    passes and the counter meets [maxiter] after them. *)
Lemma cg_loop_cap (m : nat) fuel tol0 maxiter0 st :
  (0 < m)%N -> (m <= fuel)%N -> (i st + Z.of_nat m = maxiter0)%Z ->
  (forall j sj, (j < m)%N -> cg_iter j A0 M0 st = Return sj ->
     (0 <= delta_new sj)%Re /\ (sqrt (delta_new sj) > tol0)%Re) ->
  cg_loop fuel A0 M0 tol0 maxiter0 st =
  (st' <- cg_iter m A0 M0 st ;; Return (st', true)).
Proof.
elim: m fuel st => [|m IHm] [|fuel] st // _ mfuel imax unconv.
have c0 : cg_continue tol0 maxiter0 st.
  by have [] := unconv 0%N st isT erefl; split=> //; lia.
rewrite cg_loop_head // cg_iterS.
case E: cg_body => [st1|||] //=; have [_ _ _ _ i1] := cg_bodyP E.
case: m IHm mfuel imax unconv => [|m] IHm mfuel imax unconv.
  by rewrite /=; case: Z.eqb_spec => //; lia.
case: Z.eqb_spec => [|_]; first by lia.
apply: IHm => //; first by lia.
move=> j sj jm Ej; apply: (unconv j.+1) => //.
by rewrite cg_iterS E.
Qed.

End CgLoop.

Lemma cg_iter_delta n (A0 M0 : 'M[R]_n) k (st st' : cg_state n) :
  cg_iter k A0 M0 st = Return st' ->
  delta_new st = dot (r st) (invmx M0 *m r st) ->
  delta_new st' = dot (r st') (invmx M0 *m r st').
Proof.
case: k => [|k] /=; first by case=> <-.
by case: cg_iter => [st1|||] //= /cg_bodyP [].
Qed.

(** ** [PCG.solve] as a whole *)

Section SolveTop.

Variables (rows cols : nat).
Implicit Types self : PCG rows cols.

Lemma solve_unset self fuel :
  A self = None \/ b self = None ->
  solve fuel self = (self, Raise MissingOperandError).
Proof.
by rewrite /solve; case: (A self) => [A0|] /=; case: (b self) => [b0|] //= [].
Qed.

Lemma solve_not_square self fuel A0 b0 :
  A self = Some A0 -> b self = Some b0 -> rows <> cols ->
  solve fuel self = (self, Raise ShapeError).
Proof.
by move=> EA Eb ne; rewrite /solve EA Eb /= /assert_square; case: eqP.
Qed.

Lemma solve_singular self fuel A0 b0 (sq : rows = cols) :
  A self = Some A0 -> b self = Some b0 ->
  castmx (erefl, esym sq) A0 \notin unitmx ->
  solve fuel self = (self, Raise SingularMatrixError).
Proof.
move=> EA Eb /negbTE sing; rewrite /solve EA Eb /= /assert_square.
case: eqP => // e /=; rewrite (eq_irrelevance e sq).
by rewrite /assert_not_singular sing.
Qed.

Lemma solve_checked self fuel A0 b0 (sq : rows = cols) :
  A self = Some A0 -> b self = Some b0 ->
  castmx (erefl, esym sq) A0 \in unitmx ->
  solve fuel self = solve_core fuel self (castmx (erefl, esym sq) A0) b0.
Proof.
move=> EA Eb inv; rewrite /solve EA Eb /= /assert_square.
case: eqP => // e /=; rewrite (eq_irrelevance e sq).
by rewrite /assert_not_singular inv.
Qed.

Lemma solve_core_raises fuel self A0 b0 e :
  (solve_core fuel self A0 b0).2 = Raise e ->
  e = LinAlgError \/ e = NoConvergence.
Proof.
rewrite /solve_core; case E0: cg_init => [st|e0||] //=; last first.
  by case=> <-; left; exact: cg_init_raises E0.
case E: cg_loop => [[st' [|]]|e'||] //=; first by case=> <-; right.
by case=> <-; left; exact: cg_loop_raises E.
Qed.

End SolveTop.

Section ScalarCg.
Implicit Types a be mm : R.

Lemma cg_init_scalar a be mm :
  mm != 0 ->
  cg_init (a%:M : 'M[R]_1) mm%:M be%:M =
  Return (CgState 0%:M be%:M (be / mm)%:M (be * (be / mm)) 0).
Proof.
move=> m0; rewrite /cg_init mulmx0 subr0 np_solve_scalar //= dot_scalar.
by rewrite zeromx_scalar.
Qed.

Lemma cg_init_scalar1 a be :
  cg_init (a%:M : 'M[R]_1) 1%:M be%:M =
  Return (CgState 0%:M be%:M be%:M (be * be) 0).
Proof.
rewrite cg_init_scalar ?oner_neq0 //; congr (Return (CgState _ _ _ _ _)).
  by rewrite divr1.
by to_reals; field.
Qed.

(** The first pass on a 1 x 1 system without preconditioner is exact. *)
Lemma cg_body_scalar_first a be k :
  a != 0 -> be != 0 ->
  cg_body (a%:M : 'M[R]_1) 1%:M (CgState 0%:M be%:M be%:M (be * be) k) =
  Return (CgState (be / a)%:M 0%:M 0%:M 0 (k + 1)).
Proof.
move=> /Req0 a0 /Req0 b0; rewrite /cg_body /=; mx1.
have dq0 : be * (a * be) != 0.
  by apply: Rneq0; to_reals; repeat apply: Rmult_integral_contrapositive_currified.
have bb0 : be * be != 0.
  by apply: Rneq0; to_reals; apply: Rmult_integral_contrapositive_currified.
have r0 : be - be * be / (be * (a * be)) * (a * be) = 0.
  by to_reals; field.
rewrite fdiv_def //=; mx1; rewrite r0 np_solve_scalar ?oner_neq0 //=; mx1.
rewrite fdiv_def //=; mx1; congr (Return (CgState _ _ _ _ _)).
- by congr (_%:M); to_reals; field; split.
- by congr (_%:M); to_reals; field.
- by to_reals; field.
Qed.

End ScalarCg.

Lemma guard_Return rows cols (T : Type) (self : PCG rows cols) (v : T) k :
  guard self (Return v) k = k v.
Proof. by []. Qed.

Section ScalarSolve.
Implicit Types a be : R.

(** [solve] on a 1 x 1 system without preconditioner: one exact pass. *)
Lemma solve_scalar a be (mi : option Z) (tol0 : R) (fuel : nat) :
  let self : PCG 1 1 := new_PCG None mi tol0 (Some a%:M) (Some be%:M) in
  let m0 := effective_maxiter self in
  let self' :=
    Build_PCG (Some a%:M) (Some be%:M) (Some (be / a)%:M) (Some 1%Z)
              (Some 1%:M) (Some m0) tol0 in
  a != 0 -> be != 0 -> (0 <= tol0 < sqrt (be * be))%Re -> (1 <= m0)%Z ->
  solve fuel.+1 self =
  if (m0 =? 1)%Z then (self', Raise NoConvergence) else (self', Return tt).
Proof.
move=> self m0 self' a0 b0 [tol_ge tol_lt] m1.
have bb : (0 <= be * be)%Re by have := Rle_0_sqr be; rewrite /Rsqr.
have inv : castmx (erefl, esym erefl) (a%:M : 'M[R]_1) \in unitmx.
  by rewrite castmx_id unit_scalar1.
rewrite (@solve_checked _ _ _ _ a%:M be%:M erefl) //.
rewrite castmx_id /solve_core.
have -> : effective_M self = 1%:M by [].
rewrite cg_init_scalar1.
set st0 := CgState _ _ _ _ _.
have c0 : cg_continue tol0 m0 st0 by split=> //=; lia.
rewrite guard_Return (cg_loop_head _ _ _ c0) cg_body_scalar_first //.
set st1 := CgState _ _ _ _ _.
have stop : ~ ((sqrt (delta_new st1) > tol0)%Re /\ (i st1 < m0)%Z).
  by rewrite /= sqrt_0 => -[]; lra.
rewrite bind_Return; have -> : (i st1 =? m0)%Z = (m0 =? 1)%Z by rewrite Z.eqb_sym.
case: Z.eqb_spec => [e1|ne1].
  by rewrite guard_Return /= -/m0 e1.
by rewrite (@cg_loop_stop 1 a%:M 1%:M fuel tol0 m0 st1 (Rle_refl _) stop).
Qed.

End ScalarSolve.

(** ** [PCG.solve] on the 2 x 2 system *)

Lemma np_solve1 n (v : 'cV[R]_n) : np_solve 1%:M v = Return v.
Proof. by rewrite /np_solve unitmx1 invmx1 mul1mx. Qed.

Lemma diag2_unit : diag2 1 2%Re \in unitmx.
Proof.
apply: unitmx_colker => w; rewrite [w]vec2_eta diag2_mul => /vec2_eq0 [w0 w1].
by apply/colP => j; rewrite !mxE; case: ifP => _; move: w0 w1; to_reals; lra.
Qed.

Lemma cg_init2 :
  cg_init (diag2 1 2%Re) 1%:M (vec2 1 1) =
  Return (CgState 0 (vec2 1 1) (vec2 1 1) (1 * 1 + 1 * 1) 0).
Proof. by rewrite /cg_init mulmx0 subr0 np_solve1 /= dot_vec2. Qed.

(** The first pass of [solve] on [A = diag(1, 2)], [b = (1, 1)] without
    preconditioner: the step is [2/3], the new residual has squared norm
    [2/9]. *)
Lemma cg_body2_first (k : Z) :
  cg_body (diag2 1 2%Re) 1%:M (CgState 0 (vec2 1 1) (vec2 1 1) (1 * 1 + 1 * 1) k) =
  Return (CgState (vec2 (2%Re / 3%Re) (2%Re / 3%Re))
                  (vec2 (1 / 3%Re) (- (1 / 3%Re)))
                  (vec2 (4%Re / 9%Re) (- (2%Re / 9%Re)))
                  (2%Re / 9%Re) (k + 1)).
Proof.
rewrite /cg_body /= !(diag2_mul, dot_vec2).
have dq0 : (3%Re : R) != 0 by apply: Rneq0; lra.
rewrite (fdiv_eq _ dq0) /=; try by to_reals; ring.
rewrite np_solve1 /= !(vec2Z, vec2N, vec2D, dot_vec2).
have dl0 : (2%Re : R) != 0 by apply: Rneq0; lra.
rewrite (fdiv_eq _ dl0) /=; try by to_reals; ring.
rewrite add0r !(vec2Z, vec2N, vec2D).
congr (Return (CgState _ _ _ _ _)).
- by congr (vec2 _ _); to_reals; field.
- by congr (vec2 _ _); to_reals; field.
- by congr (vec2 _ _); to_reals; field.
- by to_reals; field.
Qed.

(** [solve] on [A = diag(1, 2)], [b = (1, 1)] with [maxiter = 1] and
    the default [M] and [tol]: the cap stops it after one pass, at
    [x = (2/3, 2/3)], whose residual [(1/3, -1/3)] is above the tolerance. *)
Lemma solve2_capped (fuel : nat) :
  solve fuel.+1 (new_PCG None (Some 1%Z) default_tol
                   (Some (diag2 1 2%Re)) (Some (vec2 1 1)) : PCG 2 2) =
  (Build_PCG (Some (diag2 1 2%Re)) (Some (vec2 1 1))
             (Some (vec2 (2%Re / 3%Re) (2%Re / 3%Re))) (Some 1%Z)
             (Some 1%:M) (Some 1%Z) default_tol,
   Raise NoConvergence).
Proof.
set self := new_PCG _ _ _ _ _.
have inv : castmx (erefl, esym erefl) (diag2 1 2%Re) \in unitmx.
  by rewrite castmx_id diag2_unit.
rewrite (@solve_checked _ _ _ _ (diag2 1 2%Re) (vec2 1 1) erefl) //.
rewrite castmx_id /solve_core.
have -> : effective_M self = 1%:M by [].
rewrite cg_init2 guard_Return.
set st0 := CgState _ _ _ _ _.
have c0 : cg_continue (tol self) (effective_maxiter self) st0.
  split=> //=; first by lra.
  by have := sqrt2_ge1; rewrite /default_tol; lra.
by rewrite (cg_loop_head _ _ _ c0) cg_body2_first.
Qed.

Lemma sqrt_two_ninths : (sqrt (2 / 9) > default_tol)%Re.
Proof.
have : (sqrt (1 / 9) <= sqrt (2 / 9))%Re by apply: sqrt_le_1_alt; lra.
have -> : sqrt (1 / 9) = (1 / 3)%Re by apply: sqrt_lem_1; lra.
by rewrite /default_tol; lra.
Qed.

(** ** Claims on [PCG.solve] *)

(** C7.  [solve] checks its operands before anything else and leaves
    the instance untouched when a check fails: MissingOperandError when
    [A] or [b] is unset, ShapeError when [A] is not square,
    SingularMatrixError when [A] is singular.  There is no check of
    symmetry or positive definiteness: for every invertible square [A],
    [solve] goes on to the numerical part, and the only exceptions it can
    still raise are numpy's LinAlgError and the non-convergence error. *)
Theorem solve_fail_fast rows cols (self : PCG rows cols) (fuel : nat) :
  [/\ A self = None \/ b self = None ->
        solve fuel self = (self, Raise MissingOperandError),
      forall A0 b0, A self = Some A0 -> b self = Some b0 -> rows <> cols ->
        solve fuel self = (self, Raise ShapeError),
      forall A0 b0 (sq : rows = cols),
        A self = Some A0 -> b self = Some b0 ->
        castmx (erefl, esym sq) A0 \notin unitmx ->
        solve fuel self = (self, Raise SingularMatrixError)
    & forall A0 b0 (sq : rows = cols),
        A self = Some A0 -> b self = Some b0 ->
        castmx (erefl, esym sq) A0 \in unitmx ->
        solve fuel self = solve_core fuel self (castmx (erefl, esym sq) A0) b0
        /\ forall e, (solve fuel self).2 = Raise e ->
             e = LinAlgError \/ e = NoConvergence].
Proof.
split.
- exact: solve_unset.
- exact: solve_not_square.
- exact: solve_singular.
- move=> A0 b0 sq EA Eb inv; rewrite (solve_checked _ EA Eb inv); split=> // e.
  exact: solve_core_raises.
Qed.

Lemma opp1_neq0 : (- 1 : R) != 0.
Proof. by rewrite oppr_eq0 oner_neq0. Qed.

Lemma default_tol_lt1 : (0 <= default_tol < sqrt (1 * 1))%Re.
Proof. by rewrite Rmult_1_r sqrt_1 /default_tol; lra. Qed.

(** C7, witness: an instance without operands, a 1 x 2 matrix, the
    1 x 1 zero matrix, and the negative definite [A = [[-1]]] with
    [b = [1]], on which the loop runs one pass and [solve] returns with
    [x = [-1]]. *)
Lemma solve_fail_fast_witness :
  [/\ solve 1 (new_PCG None None default_tol None None : PCG 1 1)
        = (new_PCG None None default_tol None None, Raise MissingOperandError),
      solve 1 (new_PCG None None default_tol (Some 0) (Some 0) : PCG 1 2)
        = (new_PCG None None default_tol (Some 0) (Some 0), Raise ShapeError),
      solve 1 (new_PCG None None default_tol (Some 0) (Some 1%:M) : PCG 1 1)
        = (new_PCG None None default_tol (Some 0) (Some 1%:M),
           Raise SingularMatrixError)
    & solve 1 (new_PCG None None default_tol (Some (- 1)%:M) (Some 1%:M) : PCG 1 1)
        = (Build_PCG (Some (- 1)%:M) (Some 1%:M) (Some (1 / - 1)%:M)
             (Some 1%Z) (Some 1%:M) (Some 10%Z) default_tol, Return tt)].
Proof.
split.
- have [H _ _ _] := solve_fail_fast (new_PCG None None default_tol None None : PCG 1 1) 1.
  by apply: H; left.
- have [_ H _ _] := solve_fail_fast (new_PCG None None default_tol (Some 0) (Some 0) : PCG 1 2) 1.
  exact: (H 0 0).
- have [_ _ H _] := solve_fail_fast (new_PCG None None default_tol (Some 0) (Some 1%:M) : PCG 1 1) 1.
  apply: (H 0 1%:M erefl) => //.
  by rewrite (castmx_id _ (0 : 'M[R]_1)) unitmxE det0 unitr0.
- have [_ _ _ H] := solve_fail_fast (new_PCG None None default_tol (Some (- 1)%:M) (Some 1%:M) : PCG 1 1) 1.
  have inv : castmx (erefl, esym erefl) ((- 1)%:M : 'M[R]_1) \in unitmx.
    by rewrite castmx_id unit_scalar1 // opp1_neq0.
  have [_ no_check] := H (- 1)%:M 1%:M erefl erefl erefl inv.
  by rewrite solve_scalar ?opp1_neq0 ?oner_neq0 //; exact: default_tol_lt1.
Defined.

(** C10.  When [solve] ends in the non-convergence error, the
    instance has been changed: [self.iters] is [maxiter] (the value given,
    or the default [10 * N]), which is positive, and [self.x] is the
    iterate computed by the last, [maxiter]-th, pass through the body. *)
Theorem solve_raise_not_atomic rows cols (self self' : PCG rows cols)
    (fuel : nat) :
  solve fuel self = (self', Raise NoConvergence) ->
  exists (sq : rows = cols) (A0 : 'M[R]_(rows, cols)) (b0 : 'cV[R]_rows)
         (st0 st' : cg_state rows),
    let A1 := castmx (erefl, esym sq) A0 in
    [/\ A self = Some A0 /\ b self = Some b0,
        cg_init A1 (effective_M self) b0 = Return st0,
        (0 < effective_maxiter self)%Z /\
        cg_iter (Z.to_nat (effective_maxiter self)) A1 (effective_M self) st0
          = Return st',
        iters self' = Some (effective_maxiter self)
      & x self' = Some (self_x st')].
Proof.
case EA: (A self) => [A0|]; last by rewrite solve_unset //; left.
case Eb: (b self) => [b0|]; last by rewrite solve_unset //; right.
have [sq|/eqP ne] := eqVneq rows cols; last by rewrite (solve_not_square _ EA Eb).
case inv: (castmx (erefl, esym sq) A0 \in unitmx); last first.
  by rewrite (solve_singular _ EA Eb (negbT inv)).
rewrite (solve_checked _ EA Eb inv) /solve_core.
case E0: cg_init => [st0|e||] //=; last by case=> _ e1; move: (cg_init_raises E0); rewrite e1.
case E: cg_loop => [[st' [|]]|e||] //=; last by case=> _ e1; move: (cg_loop_raises E); rewrite e1.
case=> <-.
have [k [Ek _ [k0 imax]]] := cg_loop_returns E.
have [_ _ _ _ i0] := cg_initP E0.
have ik := cg_iter_i Ek.
exists sq, A0, b0, st0, st'; split=> //; split; first by move/ltP: k0; lia.
by have -> : Z.to_nat (effective_maxiter self) = k by lia.
Qed.

(** C10, witness: [A = diag(1, 2)], [b = (1, 1)], [maxiter = 1].  The
    exposed [x = (2/3, 2/3)] is the iterate of the first pass; its
    residual is above the tolerance. *)
Lemma solve_raise_not_atomic_witness :
  exists (sq : 2%N = 2%N) (A0 : 'M[R]_2) (b0 : 'cV[R]_2) (st0 st' : cg_state 2),
    let self : PCG 2 2 :=
      new_PCG None (Some 1%Z) default_tol
              (Some (diag2 1 2%Re)) (Some (vec2 1 1)) in
    let self' : PCG 2 2 :=
      Build_PCG (Some (diag2 1 2%Re)) (Some (vec2 1 1))
                (Some (vec2 (2%Re / 3%Re) (2%Re / 3%Re))) (Some 1%Z)
                (Some 1%:M) (Some 1%Z) default_tol in
    let A1 := castmx (erefl, esym sq) A0 in
    [/\ A self = Some A0 /\ b self = Some b0,
        cg_init A1 (effective_M self) b0 = Return st0,
        (0 < effective_maxiter self)%Z /\
        cg_iter (Z.to_nat (effective_maxiter self)) A1 (effective_M self) st0
          = Return st',
        iters self' = Some (effective_maxiter self)
      & x self' = Some (self_x st')].
Proof.
apply: (@solve_raise_not_atomic 2 2 _ _ 1).
exact: solve2_capped.
Defined.

(** C5, the code at the failing input [A = [[1]]], [b = [1]],
    [maxiter = 1], default [M] and [tol].  The single pass gives
    [delta_new = 0], so the tolerance test [sqrt(delta_new) <= tol] is
    satisfied within [maxiter] passes, and [x = [1]] solves the system;
    [solve] raises the non-convergence error all the same, because the
    counter equals [maxiter]. *)
Theorem solve_raises_on_converged (fuel : nat) :
  let A0 : 'M[R]_1 := 1%:M in
  let b0 : 'cV[R]_1 := 1%:M in
  let self : PCG 1 1 := new_PCG None (Some 1%Z) default_tol (Some A0) (Some b0) in
  exists (self' : PCG 1 1) (st0 st1 : cg_state 1),
    [/\ solve fuel.+1 self = (self', Raise NoConvergence),
        cg_init A0 1%:M b0 = Return st0 /\ cg_body A0 1%:M st0 = Return st1,
        (sqrt (delta_new st1) <= tol self)%Re /\ (i st1 <= 1)%Z,
        x self' = Some (self_x st1) /\ iters self' = Some 1%Z
      & A0 *m self_x st1 = b0].
Proof.
move=> A0 b0 self.
exists (Build_PCG (Some 1%:M) (Some 1%:M) (Some (1 / 1)%:M) (Some 1%Z)
                  (Some 1%:M) (Some 1%Z) default_tol).
exists (CgState 0%:M 1%:M 1%:M (1 * 1) 0), (CgState (1 / 1)%:M 0%:M 0%:M 0 (0 + 1)).
split=> //=.
- by rewrite solve_scalar ?oner_neq0 //; exact: default_tol_lt1.
- by rewrite cg_init_scalar1 cg_body_scalar_first ?oner_neq0.
- by rewrite sqrt_0 /default_tol; split; [lra | lia].
- by rewrite mulmx_scalar divr1 mulr1.
Qed.

(** ** Claims on both solvers *)

(** C2, as amended.  Let [maxiter = m >= 1], with fuel for [m] passes,
    and let the tolerance test of the solver fail at the states before
    and after each of the first [m] passes.  Then [pcg] returns the [x]
    and [C] of the state after the [m]-th pass and raises nothing, while
    [PCG.solve], on an invertible [A], raises the non-convergence error,
    leaving [self.x] at the [m]-th iterate and [self.iters = m]. *)
Theorem nonconvergence_policies n (A0 : 'M[R]_n) (b0 : 'cV[R]_n)
    (m fuel : nat) :
  (0 < m)%N -> (m <= fuel)%N ->
  (forall (rtol atol : R) (P : option (factor n)) (sm : pcg_state n),
     (forall j sj, (j <= m)%N ->
        pcg_iter j A0 b0 (pcg_precond P) (pcg_init A0 b0) = Return sj ->
        (norm (Linalg.r sj) > pcg_tol b0 rtol atol)%Re) ->
     pcg_iter m A0 b0 (pcg_precond P) (pcg_init A0 b0) = Return sm ->
     pcg fuel A0 b0 (Some (Z.of_nat m)) rtol atol P
       = Return (Linalg.x sm, Linalg.C sm)) /\
  (forall (M0 : option 'M[R]_n) (tol0 : R) (st0 sm : cg_state n),
     let self : PCG n n :=
       new_PCG M0 (Some (Z.of_nat m)) tol0 (Some A0) (Some b0) in
     A0 \in unitmx ->
     cg_init A0 (effective_M self) b0 = Return st0 ->
     (forall j sj, (j <= m)%N ->
        cg_iter j A0 (effective_M self) st0 = Return sj ->
        (0 <= delta_new sj)%Re /\ (sqrt (delta_new sj) > tol0)%Re) ->
     cg_iter m A0 (effective_M self) st0 = Return sm ->
     solve fuel self
       = (set_iters (set_x (prepared self) (self_x sm)) (Z.of_nat m),
          Raise NoConvergence)).
Proof.
move=> m0 mfuel; split.
  move=> rtol atol P sm unconv Em.
  rewrite /pcg pcg_runE (@pcg_loop_cap _ _ _ _ m) //= ?Em //.
  by move=> j sj /ltnW; exact: unconv.
move=> M0 tol0 st0 sm self inv E0 unconv Em.
have inv' : castmx (erefl, esym erefl) A0 \in unitmx by rewrite castmx_id.
rewrite (@solve_checked _ _ _ _ A0 b0 erefl) // castmx_id /solve_core E0.
have [_ _ _ _ i0] := cg_initP E0.
have imax : (i st0 + Z.of_nat m = Z.of_nat m)%Z by rewrite i0.
have unconv' j sj : (j < m)%N ->
    cg_iter j A0 (effective_M self) st0 = Return sj ->
    (0 <= delta_new sj)%Re /\ (sqrt (delta_new sj) > tol0)%Re.
  by move=> /ltnW; exact: unconv.
rewrite guard_Return.
have -> := @cg_loop_cap _ A0 (effective_M self) m fuel tol0 _ st0 m0 mfuel
             imax unconv'.
by rewrite Em.
Qed.

(** C2, witness: [A = diag(1, 2)], [b = (1, 1)], [maxiter = 1], the
    default tolerances and preconditioners.  After the one pass allowed
    both solvers are at [x = (2/3, 2/3)], short of the solution
    [(1, 1/2)]. *)
Lemma nonconvergence_policies_witness :
  pcg 1 (diag2 1 2%Re) (vec2 1 1) (Some (Z.of_nat 1))
      default_rtol default_atol None
    = Return (vec2 (2%Re / 3%Re) (2%Re / 3%Re),
              mat2 (1 / 3%Re) (1 / 3%Re) (1 / 3%Re) (1 / 3%Re)) /\
  solve 1 (new_PCG None (Some (Z.of_nat 1)) default_tol
             (Some (diag2 1 2%Re)) (Some (vec2 1 1)) : PCG 2 2)
    = (Build_PCG (Some (diag2 1 2%Re)) (Some (vec2 1 1))
                 (Some (vec2 (2%Re / 3%Re) (2%Re / 3%Re))) (Some 1%Z)
                 (Some 1%:M) (Some 1%Z) default_tol,
       Raise NoConvergence).
Proof.
have [Hpcg Hsolve] :=
  @nonconvergence_policies 2 (diag2 1 2%Re) (vec2 1 1) 1 1 (leqnn 1) (leqnn 1).
have atol1 : (default_atol < 1)%Re by rewrite /default_atol; lra.
have init2 : pcg_init (diag2 1 2%Re) (vec2 1 1) = PcgState 0 0 (vec2 1 1) 0.
  by rewrite /pcg_init mulmx0 subr0.
have pass1 :
    pcg_body (diag2 1 2%Re) (vec2 1 1) (pcg_precond None)
             (PcgState 0 0 (vec2 1 1) 0)
    = Return (PcgState (vec2 (2%Re / 3%Re) (2%Re / 3%Re))
                       (mat2 (1 / 3%Re) (1 / 3%Re) (1 / 3%Re) (1 / 3%Re))
                       (vec2 1 1) 1).
  by rewrite pcg_precond_default pcg_body2_first ?ridge1_neq0 // C_firstE
             ?ridge1_neq0.
split.
  apply: (Hpcg default_rtol default_atol None
            (PcgState (vec2 (2%Re / 3%Re) (2%Re / 3%Re))
                      (mat2 (1 / 3%Re) (1 / 3%Re) (1 / 3%Re) (1 / 3%Re))
                      (vec2 1 1) 1)).
    move=> [|[|j]] sj //= _; rewrite init2 ?pass1 => -[<-] /=.
      exact: rhs2_large.
    exact: rhs2_large.
  by rewrite /= init2 pass1.
apply: (Hsolve None default_tol
          (CgState 0 (vec2 1 1) (vec2 1 1) (1 * 1 + 1 * 1) 0)
          (CgState (vec2 (2%Re / 3%Re) (2%Re / 3%Re))
                   (vec2 (1 / 3%Re) (- (1 / 3%Re)))
                   (vec2 (4%Re / 9%Re) (- (2%Re / 9%Re)))
                   (2%Re / 9%Re) (0 + 1))).
- exact: diag2_unit.
- exact: cg_init2.
- move=> [|[|j]] sj //= _; rewrite ?cg_body2_first => -[<-] /=.
    by have := sqrt2_ge1; rewrite /default_tol; split; lra.
  by have := sqrt_two_ninths; split; lra.
- by rewrite /= cg_body2_first.
Defined.

(** C2, counterexample to the claim as stated.  [A = [[1]]],
    [b = [1]], [maxiter = 0]: the cap is reached at once and the tolerance
    is not met (the residual of [x = 0] has norm 1), yet [solve] raises
    nothing; it returns with [x = 0] and [iters = 0]. *)
Lemma solve_cap0_returns :
  let self : PCG 1 1 :=
    new_PCG None (Some 0%Z) default_tol (Some 1%:M) (Some 1%:M) in
  solve 10 self
    = (Build_PCG (Some 1%:M) (Some 1%:M) (Some 0%:M) (Some 0%Z)
                 (Some 1%:M) (Some 0%Z) default_tol, Return tt) /\
  (norm (1%:M - 1%:M *m 0%:M : 'cV[R]_1) > default_tol)%Re.
Proof.
move=> self; split.
  have inv : castmx (erefl, esym erefl) (1%:M : 'M[R]_1) \in unitmx.
    by rewrite castmx_id unitmx1.
  rewrite (@solve_checked _ _ _ _ 1%:M 1%:M erefl) // castmx_id /solve_core.
  have -> : effective_M self = 1%:M by [].
  set st0 := CgState 0%:M 1%:M 1%:M (1 * 1) 0.
  have d0 : (0 <= delta_new st0)%Re by rewrite /= Rmult_1_r; lra.
  have stop : ~ ((sqrt (delta_new st0) > tol self)%Re /\
                 (i st0 < effective_maxiter self)%Z) by case.
  by rewrite cg_init_scalar1 guard_Return (cg_loop_stop _ _ _ d0 stop).
mx1; rewrite norm_scalar /default_tol.
have -> : ((1 - 1 * 0) * (1 - 1 * 0))%Re = 1%Re by to_reals; lra.
by rewrite sqrt_1; lra.
Qed.

(** C3, as amended.  Over exact arithmetic, for runs that stay within
    the reals.  [PCG.solve]: when [solve] returns with [iters < maxiter],
    so that its loop ended on the tolerance test, the solution [x] it
    exposes has a residual [r = b - A x] with [sqrt(r^T M^-1 r) <= tol];
    without a preconditioner ([M] unset) this is [||A x - b|| <= tol], and
    for a symmetric [M] with [mu v^T v <= v^T M v <= Mu v^T v], [0 < mu], it
    gives [||A x - b|| <= sqrt(Mu) tol].  [pcg]: when the loop ends on the
    tolerance test (the final counter is not [maxiter], or is 0), the
    residual [r] of the final state satisfies
    [||r|| <= tol = max(rtol * ||b||, atol)]; that [r] is [b - A x] for the
    returned [x = 0] when no pass was made, and otherwise for the iterate
    [x] the last pass started from; and for a symmetric [A] with
    [lam v^T v <= v^T A v <= Lam v^T v], [0 < lam], the returned [x]
    satisfies [||A x - b|| <= sqrt(Lam / lam) tol]. *)
Theorem tolerance_exit_residual n (fuel : nat) :
  (forall (self self' : PCG n n) (A0 : 'M[R]_n) (b0 : 'cV[R]_n) (k : Z),
     A self = Some A0 -> b self = Some b0 ->
     solve fuel self = (self', Return tt) ->
     iters self' = Some k -> (k < effective_maxiter self)%Z ->
     exists xv : 'cV[R]_n,
       [/\ x self' = Some xv,
           (sqrt (dot (b0 - A0 *m xv)
                      (invmx (effective_M self) *m (b0 - A0 *m xv)))
              <= tol self)%Re,
           M self = None -> (norm (A0 *m xv - b0) <= tol self)%Re
         & forall mu Mu : R,
             (effective_M self)^T = effective_M self ->
             (0 < mu <= Mu)%Re ->
             (forall v : 'cV[R]_n,
                (mu * dot v v <= dot v (effective_M self *m v)
                   <= Mu * dot v v)%Re) ->
             (norm (A0 *m xv - b0) <= sqrt Mu * tol self)%Re]) /\
  (forall (A0 : 'M[R]_n) (b0 : 'cV[R]_n) (maxiter : option Z) (rtol atol : R)
          (P : option (factor n)) (st : pcg_state n),
     pcg_run fuel A0 b0 maxiter rtol atol P = Return st ->
     Linalg.i st <> pcg_maxiter n maxiter \/ Linalg.i st = 0%Z ->
     [/\ (norm (Linalg.r st) <= pcg_tol b0 rtol atol)%Re,
         (Linalg.i st = 0%Z /\ Linalg.x st = 0 /\
          Linalg.r st = b0 - A0 *m Linalg.x st) \/
         exists prev : pcg_state n,
           pcg_body A0 b0 (pcg_precond P) prev = Return st /\
           Linalg.r st = b0 - A0 *m Linalg.x prev
       & forall lam Lam : R,
           A0^T = A0 -> (0 < lam <= Lam)%Re ->
           (forall v : 'cV[R]_n,
              (lam * dot v v <= dot v (A0 *m v) <= Lam * dot v v)%Re) ->
           (norm (A0 *m Linalg.x st - b0)
              <= sqrt (Lam / lam) * pcg_tol b0 rtol atol)%Re]).
Proof.
split.
  move=> self self' A0 b0 k EA Eb.
  case inv: (castmx (erefl, esym erefl) A0 \in unitmx); last first.
    by rewrite (solve_singular _ EA Eb (negbT inv)).
  rewrite (solve_checked _ EA Eb inv) castmx_id /solve_core.
  case E0: cg_init => [st0|e||] //=.
  case E: cg_loop => [[st' [|]]|e||] //= [<-] /= [<-] klt.
  have [j [Ej _ [d0 stop]]] := cg_loop_returns E.
  have [Mu0 x0 r0 dl0 _] := cg_initP E0.
  have res : r st' = b0 - A0 *m self_x st'.
    by apply: cg_iter_residual Ej _; rewrite x0 r0 mulmx0 subr0.
  have dl : delta_new st' = dot (r st') (invmx (effective_M self) *m r st').
    by apply: cg_iter_delta Ej _; rewrite dl0 r0.
  have small : (sqrt (delta_new st') <= tol self)%Re.
    by apply: Rnot_gt_le => gt; apply: stop.
  exists (self_x st'); split=> //; first by rewrite -res -dl.
    move=> EM; rewrite -normN opprB -res /norm.
    by move: small; rewrite dl /effective_M EM invmx1 mul1mx.
  move=> mu Mu M_sym mu0 M_bounds; rewrite -normN opprB -res.
  have := residual_le_energy M_sym mu0 M_bounds
            (invmx (effective_M self) *m r st').
  rewrite mulKVmx // [dot (invmx _ *m _) _]dotC -dl => le.
  have Mu_ge0 : (0 <= Mu)%Re by lra.
  apply: Rle_trans (Rmult_le_compat_l _ _ _ (sqrt_pos Mu) small).
  by rewrite -sqrt_mult // /norm; apply: sqrt_le_1_alt.
move=> A0 b0 maxiter rtol atol P st; rewrite pcg_runE => E tol_exit.
have [k [Ek _ kend]] := pcg_loop_returns E.
have ik := pcg_iter_i Ek; rewrite /= in ik.
have small : (norm (Linalg.r st) <= pcg_tol b0 rtol atol)%Re.
  apply: Rnot_gt_le; case: kend => // -[/ltP k0 imax].
  by case: tol_exit => ?; lia.
split=> //.
  case: k Ek {kend} ik => [[<-] _|k /= Ek _].
    by left; rewrite /= mulmx0 subr0.
  case Ek': pcg_iter Ek => [prev|||] //= Eb.
  by right; exists prev; split=> //; have [_ _ _ -> _] := pcg_bodyP Eb.
move=> lam Lam A_sym lam0 A_bounds.
have [l0 lL] := lam0.
have tol_ge0 : (0 <= pcg_tol b0 rtol atol)%Re.
  by apply: Rle_trans small; exact: sqrt_pos.
have root_ge1 : (1 <= sqrt (Lam / lam))%Re.
  rewrite -[X in (X <= _)%Re]sqrt_1; apply: sqrt_le_1_alt.
  by apply/(Rmult_le_reg_l lam) => //;
     have -> : (lam * (Lam / lam) = Lam)%Re; [field; lra | lra].
rewrite -normN opprB.
case: k Ek {kend ik} => [[E0]|k /= Ek].
  move: small; rewrite -E0 /= mulmx0 subr0 => small.
  apply: (Rle_trans _ _ _ small); move: tol_ge0 root_ge1.
  by move: (pcg_tol _ _ _) (sqrt _) => t s; nra.
case Ek': pcg_iter Ek => [prev|||] //= Eb.
have sym0 : (C (pcg_init A0 b0))^T = C (pcg_init A0 b0) by rewrite /= trmx0.
have CAC0 : C (pcg_init A0 b0) *m A0 *m C (pcg_init A0 b0)
            = C (pcg_init A0 b0) by rewrite /= mulmx0.
have xCb0 : Linalg.x (pcg_init A0 b0) = C (pcg_init A0 b0) *m b0.
  by rewrite /= mul0mx.
have := pcg_body_residual_bound A_sym lam0 A_bounds
          (pcg_iter_sym Ek' sym0) (pcg_iter_CAC A_sym sym0 CAC0 Ek')
          (pcg_iter_xCb A_sym sym0 xCb0 Ek') Eb.
have [_ _ _ <- _] := pcg_bodyP Eb => le.
apply: (Rle_trans _ _ _ le).
by apply: Rmult_le_compat_l => //; exact: sqrt_pos.
Qed.

(** C3, witness.  [solve] on [A = [[1]]], [b = [1]] returns after one
    pass with [iters = 1 < 10] and the exact [x = [1]], within [tol] and
    within [sqrt(1) tol] for [M = I].  [pcg] on
    [A = diag(1, 7, 10)], [b = (1, 3, 1)], [atol = 1], where
    [v^T v <= v^T A v <= 10 v^T v], leaves its loop on the tolerance test
    after two passes: the returned [x = (1/2, 1/2, 0)] has
    [||A x - b|| <= sqrt(10) tol]. *)
Lemma tolerance_exit_residual_witness :
  (exists xv : 'cV[R]_1,
     [/\ Some ((1 / 1)%:M : 'cV[R]_1) = Some xv,
         (sqrt (dot (1%:M - 1%:M *m xv) (invmx 1%:M *m (1%:M - 1%:M *m xv)))
            <= default_tol)%Re
       & None = None :> option 'M[R]_1 ->
         (norm (1%:M *m xv - 1%:M)
            <= Rmin default_tol (sqrt 1 * default_tol))%Re]) /\
  (norm (diag3 1 7%Re 10%Re *m vec3 (1 / 2%Re) (1 / 2%Re) 0 - vec3 1 3%Re 1)
     <= sqrt (10 / 1) * pcg_tol (vec3 1 3%Re 1) default_rtol 1)%Re.
Proof.
split.
  have [Hsolve _] := @tolerance_exit_residual 1 1.
  have [] // :=
      Hsolve (new_PCG None None default_tol (Some 1%:M) (Some 1%:M))
        (Build_PCG (Some 1%:M) (Some 1%:M) (Some (1 / 1)%:M) (Some 1%Z)
                   (Some 1%:M) (Some 10%Z) default_tol) 1%:M 1%:M 1%Z.
    by rewrite solve_scalar ?oner_neq0 //; exact: default_tol_lt1.
  move=> xv [Ex small plain bound]; exists xv; split=> // EM.
  apply: Rmin_glb; first exact: plain.
  apply: (bound 1%Re 1%Re); first by rewrite /effective_M /= trmx1.
    by lra.
  by move=> v; rewrite /effective_M /= mul1mx; lra.
have [_ Hpcg] := @tolerance_exit_residual 3 2.
have [C2 E] := pcg_stale_exit 0.
have [|_ _ bound] := Hpcg _ _ _ _ _ _ _ E; first by left.
apply: bound; first exact: diag3_sym.
  by lra.
exact: diag3_bounds.
Defined.

Lemma sqrt_hundredth : sqrt (1 * (1 / 100)) = (1 / 10)%Re.
Proof. by apply: sqrt_lem_1; lra. Qed.

(** [solve] on [A = [[1]]], [b = [1]] with the preconditioner
    [M = [[100]]] and [tol = 0.5]: the loop ends on the tolerance test
    before the first pass ([sqrt(delta_new) = 0.1], [iters = 0 < 10]), and
    the returned [x = 0] has [||A x - b|| = 1 > tol]. *)
Lemma solve_preconditioned_residual :
  let self : PCG 1 1 :=
    new_PCG (Some (100%Re)%:M) None (1 / 2)%Re (Some 1%:M) (Some 1%:M) in
  solve 10 self
    = (Build_PCG (Some 1%:M) (Some 1%:M) (Some 0%:M) (Some 0%Z)
                 (Some (100%Re)%:M) (Some 10%Z) (1 / 2)%Re, Return tt) /\
  (0 < effective_maxiter self)%Z /\
  (norm (1%:M *m 0%:M - 1%:M : 'cV[R]_1) > 1 / 2)%Re.
Proof.
move=> self; split; last split=> //.
  have inv : castmx (erefl, esym erefl) (1%:M : 'M[R]_1) \in unitmx.
    by rewrite castmx_id unitmx1.
  have c0 : (100%Re : R) != 0 by apply: Rneq0; lra.
  rewrite (@solve_checked _ _ _ _ 1%:M 1%:M erefl) // castmx_id /solve_core.
  have -> : effective_M self = (100%Re)%:M by [].
  rewrite cg_init_scalar //.
  set st0 := CgState _ _ _ _ _.
  have d0 : (0 <= delta_new st0)%Re by rewrite /=; to_reals; lra.
  have stop : ~ ((sqrt (delta_new st0) > tol self)%Re /\
                 (i st0 < effective_maxiter self)%Z).
    by rewrite /= sqrt_hundredth => -[]; lra.
  by rewrite guard_Return (cg_loop_stop _ _ _ d0 stop).
mx1; rewrite norm_scalar.
have -> : ((1 * 0 - 1) * (1 * 0 - 1))%Re = 1%Re by to_reals; lra.
by rewrite sqrt_1; lra.
Qed.

(** C3, counterexample to the claim as stated, one run for each
    solver.  [PCG.solve] on [A = [[1]]], [b = [1]], [M = [[100]]],
    [tol = 0.5] returns on the tolerance test with [iters = 0 < 10] and
    [x = 0], whose residual has norm 1, above [tol].  [pcg] on the
    symmetric positive definite [A = diag(1, 7, 10)] with [b = (1, 3, 1)],
    [atol = 1] and the defaults makes two passes (the cap is 30) and leaves
    its loop on the tolerance test, which sees the residual
    [(63/74, -9/74, -18/37)] of the first iterate; it returns
    [x = (1/2, 1/2, 0)], whose residual has norm [sqrt(3/2)], above
    [tol = 1]. *)
Lemma tolerance_exit_fails :
  (let self : PCG 1 1 :=
     new_PCG (Some (100%Re)%:M) None (1 / 2)%Re (Some 1%:M) (Some 1%:M) in
   solve 10 self
     = (Build_PCG (Some 1%:M) (Some 1%:M) (Some 0%:M) (Some 0%Z)
                  (Some (100%Re)%:M) (Some 10%Z) (1 / 2)%Re, Return tt) /\
   (0 < effective_maxiter self)%Z /\
   (norm (1%:M *m 0%:M - 1%:M : 'cV[R]_1) > 1 / 2)%Re) /\
  (let A3 : 'M[R]_3 := diag3 1 7%Re 10%Re in
   let b3 : 'cV[R]_3 := vec3 1 3%Re 1 in
   let x2 : 'cV[R]_3 := vec3 (1 / 2%Re) (1 / 2%Re) 0 in
   let r1 : 'cV[R]_3 :=
     vec3 (63%Re / 74%Re) (- (9%Re / 74%Re)) (- (18%Re / 37%Re)) in
   exists C2 : 'M[R]_3,
     [/\ pcg 2 A3 b3 None default_rtol 1 None = Return (x2, C2),
         pcg_run 2 A3 b3 None default_rtol 1 None
           = Return (PcgState x2 C2 r1 2) /\
         pcg_maxiter 3 None = 30%Z,
         A3^T = A3 /\
         (forall v : 'cV[R]_3,
            (1 * dot v v <= dot v (A3 *m v) <= 10 * dot v v)%Re),
         (norm r1 <= pcg_tol b3 default_rtol 1)%Re
       & (norm (A3 *m x2 - b3) > pcg_tol b3 default_rtol 1)%Re]).
Proof.
split; first exact: solve_preconditioned_residual.
move=> A3 b3 x2 r1; have [C2 E] := pcg_stale_exit 0.
exists C2; split=> //.
- by rewrite /pcg E.
- by split; [exact: diag3_sym | exact: diag3_bounds].
- by apply: Rnot_gt_le; exact: residual3_small.
- exact: residual3_returned.
Qed.

(** ** Further properties of [PCG.solve] *)

Section CgMore.

Variable n : nat.
Variables (A0 M0 : 'M[R]_n) (b0 : 'cV[R]_n).
Implicit Types st : cg_state n.

Lemma cg_init_unit :
  M0 \in unitmx ->
  cg_init A0 M0 b0 =
  Return (CgState 0 b0 (invmx M0 *m b0) (dot b0 (invmx M0 *m b0)) 0).
Proof. by move=> Mu; rewrite /cg_init mulmx0 subr0 /np_solve Mu. Qed.

Lemma cg_init_cases :
  cg_init A0 M0 b0 = Raise LinAlgError \/
  exists st, cg_init A0 M0 b0 = Return st.
Proof.
by rewrite /cg_init /np_solve; case: ifP => _ /=; [right; eexists | left].
Qed.

Lemma cg_loop_out tol0 maxiter0 st :
  cg_continue tol0 maxiter0 st ->
  cg_loop 0 A0 M0 tol0 maxiter0 st = OutOfFuel.
Proof.
case=> d0 gt lt /=; rewrite /np_sqrt; case: Rlt_dec => [|_] /=; first by lra.
by case: Rgt_dec => //= _; case: Z.ltb_spec => //; lia.
Qed.

(** A loop that ends without the [raise], entered below the cap, ends
    below the cap and on a passed tolerance test. *)
Lemma cg_loop_normal fuel tol0 maxiter0 st st' :
  (i st < maxiter0)%Z ->
  cg_loop fuel A0 M0 tol0 maxiter0 st = Return (st', false) ->
  [/\ (i st' < maxiter0)%Z, (0 <= delta_new st')%Re
    & (sqrt (delta_new st') <= tol0)%Re].
Proof.
have stopped (s : cg_state n) : (0 <= delta_new s)%Re ->
    ~ ((sqrt (delta_new s) > tol0)%Re /\ (i s < maxiter0)%Z) ->
    (i s < maxiter0)%Z ->
    [/\ (i s < maxiter0)%Z, (0 <= delta_new s)%Re
      & (sqrt (delta_new s) <= tol0)%Re].
  by move=> d0 stop lt; split=> //; apply: Rnot_gt_le => gt; apply: stop.
elim: fuel st => [|fuel IHf] st lt E.
  case: (cg_loop_exits E) => [c|[[->] d0 stop]]; last exact: stopped.
  by rewrite (cg_loop_out c) in E.
case: (cg_loop_exits E) => [c|[[->] d0 stop]]; last exact: stopped.
move: E; rewrite cg_loop_head //; case E1: cg_body => [st1|||] //=.
have [_ _ _ _ i1] := cg_bodyP E1.
by case: Z.eqb_spec => // ne; apply: IHf; lia.
Qed.

Lemma cg_body_d st st' :
  cg_body A0 M0 st = Return st' ->
  d st' = invmx M0 *m r st' + (delta_new st' / delta_new st) *: d st.
Proof.
rewrite /cg_body /fdiv /np_solve; case: ifP => //= _.
by case: ifP => //= _; case: ifP => //= _ [<-].
Qed.

(** The step length makes the new residual orthogonal to the search
    direction, and [delta_new = d^T r] is kept. *)
Lemma cg_body_orth st st' :
  cg_body A0 M0 st = Return st' -> delta_new st = dot (d st) (r st) ->
  dot (d st) (r st') = 0 /\ delta_new st' = dot (d st') (r st').
Proof.
move=> E dr; have [[dq0 _] _ Er Ed _] := cg_bodyP E.
have orth : dot (d st) (r st') = 0.
  by rewrite Er -scaleNr dotDr dotZr -dr mulNr divfK // subrr.
split=> //; rewrite (cg_body_d E) dotC dotDr dotZr [dot _ (d st)]dotC orth.
by rewrite mulr0 addr0.
Qed.

Lemma cg_iter_dr k st st' :
  cg_iter k A0 M0 st = Return st' -> delta_new st = dot (d st) (r st) ->
  delta_new st' = dot (d st') (r st').
Proof.
elim: k st' => [|k IHk] st' /=; first by case=> <-.
case E: cg_iter => [st1|||] //= E1 dr.
by have [] := cg_body_orth E1 (IHk _ E dr).
Qed.

Lemma cg_body_flat st :
  dot (d st) (A0 *m d st) = 0 -> cg_body A0 M0 st = NotFinite.
Proof. by move=> e0; rewrite /cg_body /= e0 fdiv0. Qed.

End CgMore.

Section SolveMore.

Variable n : nat.
Implicit Types self : PCG n n.

Lemma solve_square self fuel (A0 : 'M[R]_n) (b0 : 'cV[R]_n) :
  A self = Some A0 -> b self = Some b0 -> A0 \in unitmx ->
  solve fuel self = solve_core fuel self A0 b0.
Proof.
move=> EA Eb inv.
have inv' : castmx (erefl, esym erefl) A0 \in unitmx by rewrite castmx_id.
by rewrite (solve_checked _ EA Eb inv') castmx_id.
Qed.

End SolveMore.

(** X12.  Whatever its outcome, [solve] leaves [self.A], [self.b] and
    [self.tol] as they were and never replaces a [maxiter] or an [M] that
    was given.  When the call returns, or ends in the non-convergence
    error, [self.maxiter] and [self.M] hold the values used (the defaults
    [10 N] and the identity when they were unset), and [self.x] and
    [self.iters] are set. *)
Theorem solve_frame rows cols (self : PCG rows cols) (fuel : nat) :
  let self' := (solve fuel self).1 in
  [/\ [/\ A self' = A self, b self' = b self & tol self' = tol self],
      (forall m, maxiter self = Some m -> maxiter self' = Some m) /\
      (forall M0, M self = Some M0 -> M self' = Some M0)
    & (solve fuel self).2 = Return tt \/
      (solve fuel self).2 = Raise NoConvergence ->
      [/\ maxiter self' = Some (effective_maxiter self),
          M self' = Some (effective_M self),
          x self' <> None & iters self' <> None]].
Proof.
have kept (e : exn) : e <> NoConvergence ->
    let self' := (self, Raise e : run unit).1 in
    [/\ [/\ A self' = A self, b self' = b self & tol self' = tol self],
        (forall m, maxiter self = Some m -> maxiter self' = Some m) /\
        (forall M0, M self = Some M0 -> M self' = Some M0)
      & (self, Raise e : run unit).2 = Return tt \/
        (self, Raise e : run unit).2 = Raise NoConvergence ->
        [/\ maxiter self' = Some (effective_maxiter self),
            M self' = Some (effective_M self),
            x self' <> None & iters self' <> None]].
  by move=> ne; split=> //= -[|[]].
have keep_m m : maxiter self = Some m -> Some (effective_maxiter self) = Some m.
  by rewrite /effective_maxiter => ->.
have keep_M M0 : M self = Some M0 -> Some (effective_M self) = Some M0.
  by rewrite /effective_M => ->.
have checked A0 b0 : A self = Some A0 -> b self = Some b0 ->
    let self' := (solve fuel self).1 in
    [/\ [/\ A self' = A self, b self' = b self & tol self' = tol self],
        (forall m, maxiter self = Some m -> maxiter self' = Some m) /\
        (forall M0, M self = Some M0 -> M self' = Some M0)
      & (solve fuel self).2 = Return tt \/
        (solve fuel self).2 = Raise NoConvergence ->
        [/\ maxiter self' = Some (effective_maxiter self),
            M self' = Some (effective_M self),
            x self' <> None & iters self' <> None]].
  move=> EA Eb; have [sq|/eqP ne] := eqVneq rows cols; last first.
    by rewrite (solve_not_square _ EA Eb) //; apply: (kept ShapeError).
  case inv: (castmx (erefl, esym sq) A0 \in unitmx); last first.
    rewrite (solve_singular _ EA Eb (negbT inv)).
    exact: (kept SingularMatrixError).
  rewrite (solve_checked _ EA Eb inv) /solve_core.
  case E0: cg_init => [st0|e||] /=; try by split=> //; case.
    case E: cg_loop => [[st' [|]]|e||] /=; try by split=> //; case.
    by split=> // -[] // [e1]; move: (cg_loop_raises E); rewrite e1.
  by split=> // -[] // [e1]; move: (cg_init_raises E0); rewrite e1.
have [[A0 EA]|EA] : (exists A0, A self = Some A0) \/ A self = None.
- by case: (A self) => [A0|]; [left; exists A0 | right].
- have [[b0 Eb]|Eb] : (exists b0, b self = Some b0) \/ b self = None.
  + by case: (b self) => [b0|]; [left; exists b0 | right].
  + exact: checked EA Eb.
  + rewrite (@solve_unset _ _ self fuel (or_intror Eb)).
    exact: (kept MissingOperandError).
- rewrite (@solve_unset _ _ self fuel (or_introl EA)).
  exact: (kept MissingOperandError).
Qed.

(** X13.  The loop of [solve] is bounded by [maxiter]: with that much
    fuel the call never runs out of it.  When the call returns, or ends in
    the non-convergence error, [self.iters] is between 0 and [maxiter]
    (it is 0 when [maxiter] is not positive). *)
Theorem solve_terminates rows cols (self : PCG rows cols) (fuel : nat) :
  (Z.to_nat (effective_maxiter self) <= fuel)%N ->
  (solve fuel self).2 <> OutOfFuel /\
  forall self',
    solve fuel self = (self', Return tt) \/
    solve fuel self = (self', Raise NoConvergence) ->
    exists k : Z,
      iters self' = Some k /\
      (0 <= k <= Z.max 0 (effective_maxiter self))%Z.
Proof.
move=> mfuel.
have failed (s : PCG rows cols) (out : run unit) :
    out <> OutOfFuel -> out <> Return tt -> out <> Raise NoConvergence ->
    (s, out).2 <> OutOfFuel /\
    forall self',
      (s, out) = (self', Return tt) \/
      (s, out) = (self', Raise NoConvergence) ->
      exists k : Z,
        iters self' = Some k /\
        (0 <= k <= Z.max 0 (effective_maxiter self))%Z.
  by move=> o1 o2 o3; split=> // self' [[_ abs]|[_ abs]].
have [[A0 EA]|EA] : (exists A0, A self = Some A0) \/ A self = None.
- by case: (A self) => [A0|]; [left; exists A0 | right].
- have [[b0 Eb]|Eb] : (exists b0, b self = Some b0) \/ b self = None.
  + by case: (b self) => [b0|]; [left; exists b0 | right].
  + have [sq|/eqP ne] := eqVneq rows cols; last first.
      by rewrite (solve_not_square _ EA Eb) //; exact: failed.
    case inv: (castmx (erefl, esym sq) A0 \in unitmx); last first.
      by rewrite (solve_singular _ EA Eb (negbT inv)); exact: failed.
    rewrite (solve_checked _ EA Eb inv) /solve_core.
    set A1 := castmx _ A0.
    case: (cg_init_cases A1 (effective_M self) b0) => [->|[st0 E0]] /=.
      exact: failed.
    have [_ _ _ _ i0] := cg_initP E0.
    rewrite E0 /=; case E: cg_loop => [[st' raised]|e||] /=.
    * have [k [Ek kc kend]] := cg_loop_returns E.
      have ik := cg_iter_i Ek.
      case: raised E kend => E kend /=; split=> // self' [] // [<-] /=.
        by exists (effective_maxiter self); split=> //; case: kend; lia.
      exists (i st'); split=> //.
      have [lt|ge] := Z_lt_dec 0 (effective_maxiter self).
        have [] := cg_loop_normal _ E; first by rewrite i0.
        by lia.
      case: (cg_loop_exits E) => [[_ _]|[[->] _ _]]; first by lia.
      by lia.
    * by rewrite (cg_loop_raises E); exact: failed.
    * exact: failed.
    * have := @cg_loop_fuel _ A1 (effective_M self) fuel (tol self)
                (effective_maxiter self) st0.
      by rewrite i0 Z.sub_0_r E => /(_ mfuel).
  + by rewrite (@solve_unset _ _ self fuel (or_intror Eb)); exact: failed.
- by rewrite (@solve_unset _ _ self fuel (or_introl EA)); exact: failed.
Qed.

(** X13, witness: [A = diag(1, 2)], [b = (1, 1)], [maxiter = 1], one
    unit of fuel. *)
Lemma solve_terminates_witness :
  let self : PCG 2 2 :=
    new_PCG None (Some 1%Z) default_tol
            (Some (diag2 1 2%Re)) (Some (vec2 1 1)) in
  (solve 1 self).2 <> OutOfFuel /\
  forall self',
    solve 1 self = (self', Return tt) \/
    solve 1 self = (self', Raise NoConvergence) ->
    exists k : Z,
      iters self' = Some k /\ (0 <= k <= Z.max 0 (effective_maxiter self))%Z.
Proof.
by move=> self; apply: solve_terminates.
Defined.

(** X14.  [solve] makes no pass through its loop when the initial
    [sqrt(b^T M^-1 b)] is within the tolerance, and also when [maxiter] is
    zero or negative, whatever the right-hand side: it returns at once
    with [x = 0] and [iters = 0], raising nothing. *)
Theorem solve_zero_iterations n (self : PCG n n) (A0 : 'M[R]_n)
    (b0 : 'cV[R]_n) (fuel : nat) :
  A self = Some A0 -> b self = Some b0 ->
  A0 \in unitmx -> effective_M self \in unitmx ->
  let delta := dot b0 (invmx (effective_M self) *m b0) in
  (0 <= delta)%Re ->
  (sqrt delta <= tol self)%Re \/ (effective_maxiter self <= 0)%Z ->
  solve fuel self = (set_iters (prepared self) 0, Return tt).
Proof.
move=> EA Eb inv Mu delta d0 done.
rewrite (solve_square _ EA Eb inv) /solve_core cg_init_unit // guard_Return.
rewrite cg_loop_stop //= => -[gt lt].
by case: done => [le|le]; [move: gt le; rewrite -/delta; lra | lia].
Qed.

(** X14, witness: [A = [[1]]] and the right-hand side [b = [0]]. *)
Lemma solve_zero_iterations_witness :
  solve 0 (new_PCG None None default_tol (Some 1%:M) (Some 0) : PCG 1 1)
    = (Build_PCG (Some 1%:M) (Some 0) (Some 0) (Some 0%Z) (Some 1%:M)
                 (Some 10%Z) default_tol, Return tt).
Proof.
apply: (@solve_zero_iterations 1 _ 1%:M 0) => //=.
- exact: unitmx1.
- exact: unitmx1.
- by rewrite dot0l; exact: Rle_refl.
- by left; rewrite dot0l sqrt_0 /default_tol; lra.
Defined.

(** X15.  Over exact arithmetic, for a run of [solve] that stays within
    the reals (no division by zero, no square root of a negative number):
    with [maxiter >= 1], such a run returns normally only on a passed
    tolerance test: then [iters < maxiter], the exposed [x] has a residual
    [r = b - A x] with [sqrt(r^T M^-1 r) <= tol], and [tol] is not
    negative.  So a normal return with [tol < 0], or with
    [r^T M^-1 r < 0], is one that has left the reals: with [tol = -1] on
    [A = [[1]]], [b = [1]] the second pass divides 0 by 0, and numpy goes
    on with nan, where the model reports [NotFinite]. *)
Theorem solve_return_converged n (self self' : PCG n n) (A0 : 'M[R]_n)
    (b0 : 'cV[R]_n) (fuel : nat) :
  A self = Some A0 -> b self = Some b0 ->
  (1 <= effective_maxiter self)%Z ->
  solve fuel self = (self', Return tt) ->
  exists (k : Z) (xv : 'cV[R]_n),
    [/\ iters self' = Some k, (0 <= k < effective_maxiter self)%Z,
        x self' = Some xv,
        (sqrt (dot (b0 - A0 *m xv)
                   (invmx (effective_M self) *m (b0 - A0 *m xv)))
           <= tol self)%Re
      & (0 <= tol self)%Re].
Proof.
move=> EA Eb m1.
case inv: (A0 \in unitmx); last first.
  have inv' : castmx (erefl, esym erefl) A0 \notin unitmx.
    by rewrite castmx_id inv.
  by rewrite (solve_singular _ EA Eb inv').
rewrite (solve_square _ EA Eb inv) /solve_core.
case E0: cg_init => [st0|e||] //=.
case E: cg_loop => [[st' [|]]|e||] //= [<-] /=.
have [_ x0 r0 dl0 i0] := cg_initP E0.
have lt0 : (i st0 < effective_maxiter self)%Z by rewrite i0; lia.
have [lt d0 small] := cg_loop_normal lt0 E.
have [j [Ej _ _]] := cg_loop_returns E.
have ij := cg_iter_i Ej.
have res : r st' = b0 - A0 *m self_x st'.
  by apply: cg_iter_residual Ej _; rewrite x0 r0 mulmx0 subr0.
have dl : delta_new st' = dot (r st') (invmx (effective_M self) *m r st').
  by apply: cg_iter_delta Ej _; rewrite dl0 r0.
exists (i st'), (self_x st'); split=> //; first by lia.
  by rewrite -res -dl.
by have := sqrt_pos (delta_new st'); lra.
Qed.

(** X15, witness: [A = [[1]]], [b = [1]] with the defaults: one pass,
    [iters = 1 < 10]. *)
Lemma solve_return_converged_witness :
  exists (k : Z) (xv : 'cV[R]_1),
    [/\ Some 1%Z = Some k, (0 <= k < 10)%Z,
        Some ((1 / 1)%:M : 'cV[R]_1) = Some xv,
        (sqrt (dot (1%:M - 1%:M *m xv) (invmx 1%:M *m (1%:M - 1%:M *m xv)))
           <= default_tol)%Re
      & (0 <= default_tol)%Re].
Proof.
apply: (@solve_return_converged 1
          (new_PCG None None default_tol (Some 1%:M) (Some 1%:M))
          (Build_PCG (Some 1%:M) (Some 1%:M) (Some (1 / 1)%:M) (Some 1%Z)
                     (Some 1%:M) (Some 10%Z) default_tol) 1%:M 1%:M 1) => //.
by rewrite solve_scalar ?oner_neq0 //; exact: default_tol_lt1.
Defined.

(** X16.  Invariants of the loop of [solve], for every [A] and every
    invertible [M], in exact arithmetic.  At each iterate the residual
    kept by the recurrence is the residual of [self.x], [delta_new] is
    [r^T M^-1 r] and also [d^T r]; and the next residual is orthogonal to
    the current search direction. *)
Theorem cg_loop_invariants n (A0 M0 : 'M[R]_n) (b0 : 'cV[R]_n)
    (st0 st : cg_state n) (k : nat) :
  cg_init A0 M0 b0 = Return st0 -> cg_iter k A0 M0 st0 = Return st ->
  [/\ r st = b0 - A0 *m self_x st,
      delta_new st = dot (r st) (invmx M0 *m r st),
      delta_new st = dot (d st) (r st)
    & forall st', cg_body A0 M0 st = Return st' -> dot (d st) (r st') = 0].
Proof.
move=> E0 Ek; have [Mu x0 r0 dl0 _] := cg_initP E0.
have d0 : d st0 = invmx M0 *m b0.
  by move: E0; rewrite cg_init_unit // => -[<-].
have dr0 : delta_new st0 = dot (d st0) (r st0) by rewrite dl0 d0 r0 dotC.
have dr := cg_iter_dr Ek dr0.
split=> //.
- by apply: cg_iter_residual Ek _; rewrite x0 r0 mulmx0 subr0.
- by apply: cg_iter_delta Ek _; rewrite dl0 r0.
- by move=> st' E1; have [] := cg_body_orth E1 dr.
Qed.

(** X16, witness: the state of [solve] after one pass on
    [A = diag(1, 2)], [b = (1, 1)]. *)
Lemma cg_loop_invariants_witness :
  let st := CgState (vec2 (2%Re / 3%Re) (2%Re / 3%Re))
                    (vec2 (1 / 3%Re) (- (1 / 3%Re)))
                    (vec2 (4%Re / 9%Re) (- (2%Re / 9%Re)))
                    (2%Re / 9%Re) (0 + 1) in
  [/\ r st = vec2 1 1 - diag2 1 2%Re *m self_x st,
      delta_new st = dot (r st) (invmx 1%:M *m r st),
      delta_new st = dot (d st) (r st)
    & forall st', cg_body (diag2 1 2%Re) 1%:M st = Return st' ->
        dot (d st) (r st') = 0].
Proof.
apply: (@cg_loop_invariants 2 (diag2 1 2%Re) 1%:M (vec2 1 1) _ _ 1 cg_init2).
by rewrite /= cg_body2_first.
Defined.

Lemma mat2_mul (a b c d p q : R) :
  mat2 a b c d *m vec2 p q = vec2 (a * p + b * q) (c * p + d * q).
Proof.
apply/colP => j; rewrite !mxE !big_ord_recl big_ord0 !mxE /= addr0.
by case: j => [[|[|j]]].
Qed.

Lemma swap2_unit : mat2 0 1 1 0 \in unitmx.
Proof.
apply: unitmx_colker => w; rewrite [w]vec2_eta mat2_mul => /vec2_eq0 [w1 w0].
by apply/colP => j; rewrite !mxE; case: ifP => _; move: w0 w1; to_reals; lra.
Qed.

(** X17.  [solve] does not check that [A] is positive definite.  When
    the first search direction [z = M^-1 b] has [z^T A z = 0] and the loop
    is entered, the step size [alpha] is a division by zero: the call
    leaves the reals in its first pass (numpy goes on with [inf] and
    [nan]). *)
Theorem solve_zero_curvature n (self : PCG n n) (A0 : 'M[R]_n)
    (b0 : 'cV[R]_n) (fuel : nat) :
  A self = Some A0 -> b self = Some b0 ->
  A0 \in unitmx -> effective_M self \in unitmx ->
  let z := invmx (effective_M self) *m b0 in
  (0 <= dot b0 z)%Re -> (sqrt (dot b0 z) > tol self)%Re ->
  (1 <= effective_maxiter self)%Z ->
  dot z (A0 *m z) = 0 ->
  (solve fuel.+1 self).2 = NotFinite.
Proof.
move=> EA Eb inv Mu z d0 gt m1 flat.
rewrite (solve_square _ EA Eb inv) /solve_core cg_init_unit // guard_Return.
set st0 := CgState _ _ _ _ _.
have c0 : cg_continue (tol self) (effective_maxiter self) st0.
  by split=> //=; lia.
rewrite (cg_loop_head _ _ _ c0).
by rewrite (@cg_body_flat n A0 (effective_M self) st0 flat).
Qed.

(** X17, witness: the symmetric, invertible and indefinite
    [A = [[0, 1], [1, 0]]] with [b = (1, 0)] and the defaults. *)
Lemma solve_zero_curvature_witness :
  (solve 1 (new_PCG None None default_tol
              (Some (mat2 0 1 1 0)) (Some (vec2 1 0)) : PCG 2 2)).2
    = NotFinite.
Proof.
have one : 1 * 1 + 0 * 0 = 1 :> R by to_reals; ring.
apply: (@solve_zero_curvature 2 _ (mat2 0 1 1 0) (vec2 1 0) 0) => //=.
- exact: swap2_unit.
- exact: unitmx1.
- by rewrite invmx1 mul1mx dot_vec2 one; exact: Rle_0_1.
- by rewrite invmx1 mul1mx dot_vec2 one sqrt_1 /default_tol; lra.
- by rewrite invmx1 mul1mx mat2_mul dot_vec2; to_reals; ring.
Defined.

(** X18.  The preconditioner [M] is not checked by the assertions.
    A singular [M] makes [np.linalg.solve] raise numpy's LinAlgError before
    the loop, after [self.maxiter] has been filled in and [self.x] set to
    zero; [self.iters] stays as it was. *)
Theorem solve_singular_preconditioner n (self : PCG n n) (A0 M0 : 'M[R]_n)
    (b0 : 'cV[R]_n) (fuel : nat) :
  A self = Some A0 -> b self = Some b0 -> A0 \in unitmx ->
  M self = Some M0 -> M0 \notin unitmx ->
  solve fuel self = (prepared self, Raise LinAlgError) /\
  [/\ x (prepared self) = Some 0, iters (prepared self) = iters self
    & maxiter (prepared self) = Some (effective_maxiter self)].
Proof.
move=> EA Eb inv EM /negbTE sing; split=> //.
rewrite (solve_square _ EA Eb inv) /solve_core /effective_M EM.
by rewrite /cg_init /np_solve sing.
Qed.

(** X18, witness: [A = [[1]]], [b = [1]], [M = [[0]]]. *)
Lemma solve_singular_preconditioner_witness :
  let self : PCG 1 1 :=
    new_PCG (Some 0) None default_tol (Some 1%:M) (Some 1%:M) in
  solve 1 self = (prepared self, Raise LinAlgError) /\
  [/\ x (prepared self) = Some 0, iters (prepared self) = iters self
    & maxiter (prepared self) = Some (effective_maxiter self)].
Proof.
move=> self; apply: (@solve_singular_preconditioner 1 self 1%:M 0 1%:M) => //.
  exact: unitmx1.
by rewrite unitmxE det0 unitr0.
Defined.

Section CgEigen.

Variable n : nat.
Variables (A0 : 'M[R]_n) (b0 : 'cV[R]_n) (lam : R).
Hypothesis eigen : A0 *m b0 = lam *: b0.
Hypothesis lam_neq0 : lam != 0.
Hypothesis b_neq0 : b0 != 0.

(** The first pass without preconditioner on an eigenvector [b] of
    [A]. *)
Lemma cg_body_eigen (k : Z) :
  cg_body A0 1%:M (CgState 0 b0 b0 (dot b0 b0) k) =
  Return (CgState (lam^-1 *: b0) 0 0 0 (k + 1)).
Proof.
have d0 : dot b0 b0 != 0.
  by apply: Rneq0; have := dot_gt0 b_neq0; to_reals; lra.
have al : dot b0 b0 / (lam * dot b0 b0) = lam^-1.
  have /Req0 l0 := lam_neq0; have /Req0 dd0 := d0.
  by to_reals; field.
rewrite /cg_body /= eigen dotZr fdiv_def ?eigen_eta //= al.
rewrite scalerA mulVf // scale1r subrr np_solve1 /= dot0l fdiv_def //=.
by rewrite mul0r scale0r !add0r.
Qed.

End CgEigen.

Lemma eigen_lam n (A0 : 'M[R]_n) (b0 : 'cV[R]_n) (lam : R) :
  A0 \in unitmx -> A0 *m b0 = lam *: b0 -> b0 != 0 -> lam != 0.
Proof.
move=> inv eigen; apply: contra_neq => l0.
by rewrite -[b0](mulKmx inv) eigen l0 scale0r mulmx0.
Qed.

(** X19.  [solve] without preconditioner on a right-hand side [b]
    that is an eigenvector of [A] and is above the tolerance: the first
    pass gives the exact solution [x = b / lambda] and a zero residual.
    With [maxiter >= 2] the call returns with [iters = 1]; with
    [maxiter = 1] it raises the non-convergence error on this exact
    solution. *)
Theorem solve_eigenvector_one_step n (self : PCG n n) (A0 : 'M[R]_n)
    (b0 : 'cV[R]_n) (lam : R) (fuel : nat) :
  A self = Some A0 -> b self = Some b0 -> M self = None ->
  A0 \in unitmx -> A0 *m b0 = lam *: b0 -> b0 != 0 ->
  (0 <= tol self < norm b0)%Re -> (1 <= effective_maxiter self)%Z ->
  solve fuel.+1 self =
    (set_iters (set_x (prepared self) (lam^-1 *: b0)) 1,
     if (effective_maxiter self =? 1)%Z then Raise NoConvergence
     else Return tt) /\
  A0 *m (lam^-1 *: b0) = b0.
Proof.
move=> EA Eb EM inv eigen b_neq0 [tol_ge tol_lt] m1.
have l0 := eigen_lam inv eigen b_neq0.
split; last exact: eigen_solution.
rewrite (solve_square _ EA Eb inv) /solve_core.
have -> : effective_M self = 1%:M by rewrite /effective_M EM.
rewrite cg_init_unit ?unitmx1 // invmx1 mul1mx guard_Return.
set st0 := CgState _ _ _ _ _.
have c0 : cg_continue (tol self) (effective_maxiter self) st0.
  by split=> //=; [exact: dot_ge0 | lia].
rewrite (cg_loop_head _ _ _ c0) (cg_body_eigen eigen) // bind_Return.
set st1 := CgState _ _ _ _ _.
have stop : ~ ((sqrt (delta_new st1) > tol self)%Re /\
               (i st1 < effective_maxiter self)%Z).
  by rewrite /= sqrt_0 => -[]; lra.
have -> : (i st1 =? effective_maxiter self)%Z = (effective_maxiter self =? 1)%Z.
  by rewrite Z.eqb_sym.
case: Z.eqb_spec => [e1|ne1]; first by rewrite guard_Return /= e1.
by rewrite (@cg_loop_stop n A0 1%:M fuel (tol self) _ st1 (Rle_refl _) stop).
Qed.

(** X19, witness: [A = diag(1, 2)], [b = (0, 1)], an eigenvector for
    [lambda = 2], with the defaults. *)
Lemma solve_eigenvector_one_step_witness :
  let self : PCG 2 2 :=
    new_PCG None None default_tol (Some (diag2 1 2%Re)) (Some (vec2 0 1)) in
  solve 1 self =
    (set_iters (set_x (prepared self) ((2%Re : R)^-1 *: vec2 0 1)) 1,
     if (effective_maxiter self =? 1)%Z then Raise NoConvergence
     else Return tt) /\
  diag2 1 2%Re *m ((2%Re : R)^-1 *: vec2 0 1) = vec2 0 1.
Proof.
move=> self.
apply: (@solve_eigenvector_one_step 2 self (diag2 1 2%Re) (vec2 0 1) 2%Re 0)
  => //.
- exact: diag2_unit.
- by rewrite diag2_mul vec2Z; congr (vec2 _ _); to_reals; ring.
- by apply: vec2_neq0; exact: oner_neq0.
- rewrite norm_vec2 /= /default_tol.
  have -> : sqrt (0 * 0 + 1 * 1) = 1%Re.
    by rewrite -[RHS]sqrt_1; congr sqrt; to_reals; ring.
  by lra.
Defined.

Section CgSpd.

Variable n : nat.
Variables (A0 M0 : 'M[R]_n).
Hypothesis A_pd : forall v : 'cV[R]_n, v != 0 -> (0 < dot v (A0 *m v))%Re.
Hypothesis M_pd : forall v : 'cV[R]_n, v != 0 -> (0 < dot v (M0 *m v))%Re.
Implicit Types st : cg_state n.

(** On a positive definite system with a positive definite
    preconditioner a pass entered with [delta_new > 0] divides by nothing
    that is zero. *)
Lemma cg_body_spd st :
  delta_new st = dot (d st) (r st) -> (0 < delta_new st)%Re ->
  exists st', cg_body A0 M0 st = Return st'.
Proof.
move=> dr gt0.
have d0 : d st != 0.
  by apply/eqP => e; move: gt0; rewrite dr e dot0l; exact: Rlt_irrefl.
have dq0 : dot (d st) (A0 *m d st) != 0.
  by apply: Rneq0; have := A_pd d0; to_reals; lra.
have dl0 : delta_new st != 0 by apply: Rneq0; move: gt0; to_reals; lra.
by rewrite /cg_body /= fdiv_def //= /np_solve (pd_unit M_pd) /= fdiv_def //=;
   eexists.
Qed.

Lemma cg_loop_spd fuel tol0 maxiter0 st :
  (0 <= tol0)%Re ->
  delta_new st = dot (d st) (r st) ->
  delta_new st = dot (r st) (invmx M0 *m r st) ->
  (Z.to_nat (maxiter0 - i st) <= fuel)%N ->
  exists fin, cg_loop fuel A0 M0 tol0 maxiter0 st = Return fin.
Proof.
move=> tol_ge; elim: fuel st => [|fuel IHf] st dr dl /leP fuel_ok.
  have d0 : (0 <= delta_new st)%Re by rewrite dl; exact: pd_inv_ge0.
  have stop : ~ ((sqrt (delta_new st) > tol0)%Re /\ (i st < maxiter0)%Z).
    by case=> _; lia.
  by rewrite (cg_loop_stop _ _ _ d0 stop); eexists.
have d0 : (0 <= delta_new st)%Re by rewrite dl; exact: pd_inv_ge0.
have [gt|ngt] := Rgt_dec (sqrt (delta_new st)) tol0; last first.
  have stop : ~ ((sqrt (delta_new st) > tol0)%Re /\ (i st < maxiter0)%Z).
    by case.
  by rewrite (cg_loop_stop _ _ _ d0 stop); eexists.
have [lt|ge] := Z_lt_dec (i st) maxiter0; last first.
  have stop : ~ ((sqrt (delta_new st) > tol0)%Re /\ (i st < maxiter0)%Z).
    by case.
  by rewrite (cg_loop_stop _ _ _ d0 stop); eexists.
have c0 : cg_continue tol0 maxiter0 st by split.
have gt0 : (0 < delta_new st)%Re.
  case: (Rle_lt_or_eq_dec _ _ d0) => // e0.
  by move: gt; rewrite -e0 sqrt_0; lra.
have [st1 E1] := cg_body_spd dr gt0.
rewrite (cg_loop_head _ _ _ c0) E1 /=.
case: Z.eqb_spec => [_|ne]; first by eexists.
have [_ _ _ dl1 i1] := cg_bodyP E1.
have [_ dr1] := cg_body_orth E1 dr.
by apply: IHf => //; apply/leP; lia.
Qed.

End CgSpd.

Lemma id_pd n (v : 'cV[R]_n) : v != 0 -> (0 < dot v (1%:M *m v))%Re.
Proof. by rewrite mul1mx; exact: dot_gt0. Qed.

(** X20.  [solve] on a positive definite [A] with a positive definite
    preconditioner [M] (the identity when [M] is unset) and a tolerance
    that is not negative: no division by zero, no square root of a
    negative number, no error from numpy.  With fuel for [maxiter] passes
    the call returns, or it ends in the non-convergence error. *)
Theorem solve_spd_well_defined n (self : PCG n n) (A0 : 'M[R]_n)
    (b0 : 'cV[R]_n) (fuel : nat) :
  A self = Some A0 -> b self = Some b0 ->
  (forall v : 'cV[R]_n, v != 0 -> (0 < dot v (A0 *m v))%Re) ->
  (forall v : 'cV[R]_n, v != 0 ->
     (0 < dot v (effective_M self *m v))%Re) ->
  (0 <= tol self)%Re ->
  (Z.to_nat (effective_maxiter self) <= fuel)%N ->
  (solve fuel self).2 = Return tt \/
  (solve fuel self).2 = Raise NoConvergence.
Proof.
move=> EA Eb A_pd M_pd tol_ge mfuel.
rewrite (solve_square _ EA Eb (pd_unit A_pd)) /solve_core.
rewrite cg_init_unit ?(pd_unit M_pd) // guard_Return.
set st0 := CgState _ _ _ _ _.
have [] := @cg_loop_spd n A0 (effective_M self) A_pd M_pd fuel (tol self)
             (effective_maxiter self) st0 tol_ge.
- by rewrite /= dotC.
- by [].
- by rewrite /= Z.sub_0_r.
by move=> [st' [|]] -> /=; [right | left].
Qed.

(** X20, witness: [A = diag(1, 2)], [b = (1, 1)], no preconditioner,
    [maxiter = 1], one unit of fuel. *)
Lemma solve_spd_well_defined_witness :
  let self : PCG 2 2 :=
    new_PCG None (Some 1%Z) default_tol
            (Some (diag2 1 2%Re)) (Some (vec2 1 1)) in
  (solve 1 self).2 = Return tt \/ (solve 1 self).2 = Raise NoConvergence.
Proof.
move=> self.
apply: (@solve_spd_well_defined 2 self (diag2 1 2%Re) (vec2 1 1) 1) => //.
- exact: diag2_pd.
- exact: id_pd.
- by rewrite /= /default_tol; lra.
Defined.
